(** * carbonserver-flamegraphs: the tree pipeline of [main.go]

    A shallow embedding of the tree construction, trimming, flattening and
    reconstruction code of [main.go], of the retry loop of the collector and
    of the query handler, with the properties the specification states about
    them.

    - [trimNodes], [convertToClickhouse] and [reconstructTree] work on a tree
      of owned children and are functions on an inductive tree.
    - [constructTree] reaches every node through two references (the [seen]
      map and the children of its parent) and updates it in place; it runs
      on a heap of cells, and [treeOf] reads the finished heap as a tree.
    - [getList] is the [goto retry] loop over the outcomes of the calls of
      [httpClient.Get].
    - [getHandler] runs in a small monad in which [logger.Fatal] ends the
      process. *)

From stdpp Require Import gmap strings list.
From Stdlib Require Import ZArith Lia Ascii.
From Equations Require Import Equations.

Local Open Scope Z_scope.

(** ** Machine integers

    [uint64] values are integers in [0, 2^64); arithmetic wraps around. *)

Definition uint64_modulus : Z := 2 ^ 64.

Definition wrap64 (x : Z) : Z := x mod uint64_modulus.

(** ** Data model *)

(** The scalar fields of a [flameGraphNode] of the source, and its
    [childrenIds] slice. *)
Record nodeFields := mkFields {
  id : Z;
  cluster : string;
  Name : string;
  Total : Z;
  Value : Z;
  childrenIds : list Z
}.

(** A [flameGraphNode] together with the nodes it owns through [Children].
    The [parent] field of the source is a back reference that none of
    [trimNodes], [convertToClickhouse] and [reconstructTree] reads; in this
    view it is the position of the node in the tree. *)
#[local] Unset Elimination Schemes.
Inductive flameGraphNode :=
  Node (fields : nodeFields) (Children : list flameGraphNode).

#[local] Set Elimination Schemes.

Definition fields (n : flameGraphNode) : nodeFields :=
  let 'Node f _ := n in f.

Definition Children (n : flameGraphNode) : list flameGraphNode :=
  let 'Node _ cs := n in cs.

Definition rootElementId : Z := 1.

Record clickhouseField := mkRow {
  chTimestamp : Z;
  chGraphType : string;
  chCluster : string;
  chName : string;
  chTotal : Z;
  chId : Z;
  chValue : Z;
  chChildrenIds : list Z
}.

(** The zero value of [clickhouseField], which a Go map lookup returns for
    an absent key. *)
Definition zeroRow : clickhouseField :=
  mkRow 0 "" "" "" 0 0 0 [].

(** ** Induction over trees *)

Section flameGraphNode_ind.
Variable P : flameGraphNode → Prop.
Hypothesis P_node : ∀ f cs, Forall P cs → P (Node f cs).

Fixpoint flameGraphNode_ind' (t : flameGraphNode) : P t :=
  match t with
  | Node f cs =>
      P_node f cs
        ((fix go (l : list flameGraphNode) : Forall P l :=
            match l with
            | [] => @List.Forall_nil _ P
            | c :: l' => @List.Forall_cons _ P c l' (flameGraphNode_ind' c) (go l')
            end) cs)
  end.
End flameGraphNode_ind.

(** All the nodes of a tree in pre-order, the root first. *)
Fixpoint nodes (t : flameGraphNode) : list flameGraphNode :=
  t :: (fix go (l : list flameGraphNode) : list flameGraphNode :=
          match l with
          | [] => []
          | c :: l' => nodes c ++ go l'
          end) (Children t).

(** The nodes below the root. *)
Definition descendants (t : flameGraphNode) : list flameGraphNode :=
  tail (nodes t).

Definition ids (t : flameGraphNode) : list Z :=
  (λ n, id (fields n)) <$> nodes t.

(** ** [trimNodes] *)

Fixpoint trimNodes (node : flameGraphNode) (limit : Z) : flameGraphNode :=
  let 'Node f children := node in
  Node f
    ((fix loop (l : list flameGraphNode) : list flameGraphNode :=
        match l with
        | [] => []
        | n :: l' =>
            if limit <? Value (fields n)
            then trimNodes n limit :: loop l'
            else loop l'
        end) children).

(** ** [convertToClickhouse] *)

Definition rowOf (f : nodeFields) (timestamp : Z) : clickhouseField :=
  {| chTimestamp := timestamp;
     chGraphType := "";
     chCluster := cluster f;
     chName := Name f;
     chTotal := Total f;
     chId := id f;
     chValue := Value f;
     chChildrenIds := childrenIds f |}.

Fixpoint convertToClickhouse (node : flameGraphNode) (timestamp : Z)
  : list clickhouseField :=
  let 'Node f children := node in
  rowOf f timestamp ::
    (fix loop (l : list flameGraphNode) : list clickhouseField :=
       match l with
       | [] => []
       | n :: l' =>
           rowOf (fields n) timestamp
             :: (convertToClickhouse n timestamp ++ loop l')
       end) children.

(** ** [reconstructTree]

    The source recurses along the [ChildrenIds] stored in [data], which need
    not be well founded, so the model takes fuel: [None] is a recursion that
    has not finished within [fuel] nested calls. *)

Definition nodeOfRow (r : clickhouseField) : nodeFields :=
  {| id := chId r;
     cluster := chCluster r;
     Name := chName r;
     Total := chTotal r;
     Value := chValue r;
     childrenIds := chChildrenIds r |}.

Definition lookupRow (data : gmap Z clickhouseField) (i : Z) : clickhouseField :=
  default zeroRow (data !! i).

Fixpoint reconstructTree (fuel : nat) (data : gmap Z clickhouseField)
    (root : flameGraphNode) (minValue : Z) : option flameGraphNode :=
  match fuel with
  | O => None
  | S fuel' =>
      let 'Node f children := root in
      new ← (fix loop (l : list Z) : option (list flameGraphNode) :=
               match l with
               | [] => Some []
               | i :: l' =>
                   if minValue <? chValue (lookupRow data i)
                   then
                     node ← reconstructTree fuel' data
                              (Node (nodeOfRow (lookupRow data i)) []) minValue;
                     rest ← loop l';
                     Some (node :: rest)
                   else loop l'
               end) (childrenIds f);
      Some (Node f (children ++ new))
  end.

(** The rows of a snapshot keyed by id, as the query handler collects them:
    a later row replaces an earlier one with the same id. *)
Definition keyById (rows : list clickhouseField) : gmap Z clickhouseField :=
  foldl (λ data r, <[chId r := r]> data) ∅ rows.

(** Every node of [t] has childrenIds that list the ids of its Children, in
    order: the parallelism [constructTree] maintains. *)
Definition parallelHere (n : flameGraphNode) : Prop :=
  childrenIds (fields n) = (λ c, id (fields c)) <$> Children n.

Definition parallel (t : flameGraphNode) : Prop :=
  Forall parallelHere (nodes t).

Definition leaf (i : Z) (name : string) (total value : Z) : flameGraphNode :=
  Node (mkFields i "c" name total value []) [].

(** root(1) -> a(2) -> b(3), where [a] is small and [b] is large. *)
Definition exampleChain : flameGraphNode :=
  Node (mkFields 1 "c" "all" 10 10 [2])
    [Node (mkFields 2 "c" "a" 10 1 [3]) [leaf 3 "b" 10 7]].

(** The root [parseTree] makes when no host returned a name. *)
Definition emptyRoot : flameGraphNode :=
  Node (mkFields rootElementId "c" "all" 0 0 []) [].

(** ** [getList]: the retry loop of the collector

    One call of [httpClient.Get] either fails at transport or returns a
    response. [json.Decoder.Decode] then writes into [inputMetrics], which
    is declared before the [retry] label and so lives across attempts: what
    a body does to it is the [store] of the response, and [decodeErr] tells
    whether [Decode] returned an error. The status code of the response is
    carried along; the source never reads it. *)
Inductive attempt :=
  | TransportError
  | Response (status : Z) (decodeErr : bool)
             (store : list string → list string).

(** [net k] is the outcome of the [k]-th call of [Get], counted from 0. The
    result is the returned slice and the number of calls made. [tries] is a
    Go [int] that stays below 5. *)
Equations? getList_retry (net : nat → attempt) (tries : Z)
    (inputMetrics : list string) (calls : nat) : list string * nat
    by wf (Z.to_nat (4 - tries)) lt :=
  getList_retry net tries inputMetrics calls with decide (tries > 3) := {
    | left _ => ([], calls)
    | right _ with net calls := {
        | TransportError =>
            getList_retry net (tries + 1) inputMetrics (S calls)
        | Response _ decodeErr store with decodeErr := {
            | true =>
                getList_retry net (tries + 1) (store inputMetrics) (S calls)
            | false => (store inputMetrics, S calls) } } }.
Proof. all: lia. Qed.

Definition getList (net : nat → attempt) : list string * nat :=
  getList_retry net 1 [] 0%nat.

(** An attempt the source retries. *)
Definition failed (a : attempt) : bool :=
  match a with
  | TransportError => true
  | Response _ decodeErr _ => decodeErr
  end.

(** ** [getHandler]: the query endpoint

    A handler runs against the [http.ResponseWriter] and either returns,
    panics, or ends the process: [logger.Fatal] of zap writes the entry and
    then calls [os.Exit(1)], so nothing after it runs. The writer keeps the
    status code and what was written to the body, in order: the line of
    text [http.Error] prints, or the tree whose JSON [w.Write] sends. *)
Inductive written :=
  | Text (line : string)
  | Json (tree : flameGraphNode).

Record responseWriter := mkWriter {
  statusCode : option Z;
  body : list written
}.

Inductive outcome (A : Type) :=
  | Returned (a : A) (w : responseWriter)
  | Panicked (w : responseWriter)
  | Exited (code : Z).
Arguments Returned {A} a w.
Arguments Panicked {A} w.
Arguments Exited {A} code.

Definition handlerM (A : Type) : Type := responseWriter → outcome A.

#[global] Instance handler_ret : MRet handlerM :=
  λ A a w, Returned a w.

#[global] Instance handler_bind : MBind handlerM :=
  λ A B k m w,
    match m w with
    | Returned a w' => k a w'
    | Panicked w' => Panicked w'
    | Exited code => Exited code
    end.

Definition logger_Fatal : handlerM unit := λ _, Exited 1.
Definition logger_Error : handlerM unit := mret tt.
Definition logger_Info : handlerM unit := mret tt.
Definition panic {A} : handlerM A := λ w, Panicked w.

(** The goroutine stack has no room left: the runtime prints
    [fatal error: stack overflow] and ends the process with exit code 2.
    This is not a panic, and the [recover] of the server does not see it. *)
Definition stackOverflow {A} : handlerM A := λ _, Exited 2.

Definition StatusOK : Z := 200.
Definition StatusBadRequest : Z := 400.
Definition StatusInternalServerError : Z := 500.

(** [http.Error]: sets the status code (the first one written wins) and
    prints the message as a line of text. *)
Definition http_Error (error : string) (code : Z) : handlerM unit :=
  λ w, Returned tt
         (mkWriter (Some (default code (statusCode w)))
            (body w ++ [Text error])).

(** [w.Write]: an implicit 200 when no status was written before. *)
Definition w_Write (b : flameGraphNode) : handlerM unit :=
  λ w, Returned tt
         (mkWriter (Some (default StatusOK (statusCode w)))
            (body w ++ [Json b])).

Record request := mkRequest {
  form_ts : string;
  form_cluster : string
}.

(** What one request runs against. [totalRows] and [dataRows] are the rows
    the row store answers the two queries with, [None] when the query
    itself fails; a row is [None] when [rows.Scan] fails on it. [floorOf]
    is the floating point computation
    [uint64(float64(total) * removeLowest)]. [reconstructFuel] is the number
    of nested calls of [reconstructTree] the goroutine stack has room for
    (the runtime lets a stack grow to a fixed maximum, 1 GB on 64-bit
    systems): a recursion that goes deeper than that, and so every
    recursion that does not end, is a stack overflow. *)
Record backend := mkBackend {
  openErr : bool;
  pingErr : bool;
  totalRows : option (list (option Z));
  dataRows : option (list (option clickhouseField));
  marshalErr : bool;
  floorOf : Z → Z;
  reconstructFuel : nat
}.

(** The loops over [rows.Next()]: the first scan error answers 500 and
    leaves the handler ([None]); otherwise the state after the last row. *)
Fixpoint scanTotal (rows : list (option Z)) (total : Z) : option Z :=
  match rows with
  | [] => Some total
  | Some t :: rows' => scanTotal rows' t
  | None :: _ => None
  end.

Fixpoint scanData (rows : list (option clickhouseField))
    (data : gmap Z clickhouseField) : option (gmap Z clickhouseField) :=
  match rows with
  | [] => Some data
  | Some res :: rows' => scanData rows' (<[chId res := res]> data)
  | None :: _ => None
  end.

Definition getHandler (db : backend) (req : request) : handlerM unit :=
  let ts := form_ts req in
  let cluster := form_cluster req in
  if bool_decide (ts = "") || bool_decide (cluster = "")
  then logger_Fatal ;; http_Error "Error fetching data" StatusBadRequest
  else if openErr db
  then logger_Fatal ;;
       http_Error "Error fetching data" StatusInternalServerError
  else if pingErr db
  then logger_Error ;;
       http_Error "Error fetching data" StatusInternalServerError
  else
    match totalRows db with
    | None => panic (* the error is not checked: [rows] is nil *)
    | Some rows =>
        match scanTotal rows 0 with
        | None =>
            logger_Error ;;
            http_Error "Error fetching data" StatusInternalServerError
        | Some total =>
            let minValue := floorOf db total in
            match dataRows db with
            | None =>
                logger_Error ;;
                http_Error "Error fetching data" StatusInternalServerError
            | Some rows =>
                match scanData rows ∅ with
                | None =>
                    logger_Error ;;
                    http_Error "Error fetching data"
                      StatusInternalServerError
                | Some data =>
                    let flameGraphTreeRoot :=
                      Node (nodeOfRow (lookupRow data rootElementId)) [] in
                    match reconstructTree (reconstructFuel db) data
                            flameGraphTreeRoot minValue with
                    | None => stackOverflow
                    | Some tree =>
                        if marshalErr db
                        then logger_Error ;;
                             http_Error "Error fetching data"
                               StatusInternalServerError
                        else w_Write tree ;; logger_Info
                    end
                end
            end
        end
    end.

Definition emptyWriter : responseWriter := mkWriter None [].

(** A request with a cluster and no [ts], against a row store that works. *)
Definition requestNoTs : request := mkRequest "" "prod".
Definition requestNoCluster : request := mkRequest "1500000000" "".
Definition healthyBackend : backend :=
  mkBackend false false (Some [Some 0]) (Some []) false (λ _, 0) 1.

(** What an attempt leaves in [inputMetrics]. *)
Definition stored (a : attempt) (inputMetrics : list string) : list string :=
  match a with
  | TransportError => inputMetrics
  | Response _ _ store => store inputMetrics
  end.

(** [inputMetrics] after the first [n] attempts. It is declared once,
    before the [retry] label: it starts empty, and the decode of each
    attempt writes into what the earlier attempts left. *)
Fixpoint inputAfter (net : nat → attempt) (n : nat) : list string :=
  match n with
  | O => []
  | S k => stored (net k) (inputAfter net k)
  end.

Definition alwaysDown : nat → attempt := λ _, TransportError.

(** A host that is down at the first call and answers at the second. *)
Definition lateAnswer : nat → attempt :=
  λ k, match k with
       | O => TransportError
       | _ => Response 200 false (λ _, ["carbon.agents.a.cpu"])
       end.

(** A host that answers 500 with a body that decodes. *)
Definition serverError : nat → attempt :=
  λ _, Response 500 false (λ _, ["carbon.agents.a.cpu"]).

(** ** The heap of [constructTree]

    [constructTree] reaches a node both through the [seen] map and through
    the [Children] of its parent, and updates it in place. Nodes live in an
    arena: a pointer is an index, and [&flameGraphNode{...}] appends a cell.
    A lookup that fails is a nil dereference ([None]). *)

Record heapNode := mkHeapNode {
  hFields : nodeFields;
  hChildren : list nat;
  hParent : option nat
}.

(** [n.Value++] *)
Definition bumpValue (n : heapNode) : heapNode :=
  let f := hFields n in
  mkHeapNode
    (mkFields (id f) (cluster f) (Name f) (Total f) (wrap64 (Value f + 1))
       (childrenIds f))
    (hChildren n) (hParent n).

(** [parent.Children = append(parent.Children, data)] and
    [parent.childrenIds = append(parent.childrenIds, cnt)] *)
Definition appendChild (data : nat) (cnt : Z) (n : heapNode) : heapNode :=
  let f := hFields n in
  mkHeapNode
    (mkFields (id f) (cluster f) (Name f) (Total f) (Value f)
       (childrenIds f ++ [cnt]))
    (hChildren n ++ [data]) (hParent n).

(** [strings.Split(s, ".")]: the result is never empty. *)
Fixpoint split_dot (s : string) : list string :=
  match s with
  | EmptyString => [EmptyString]
  | String c s' =>
      if Ascii.eqb c "."%char
      then EmptyString :: split_dot s'
      else match split_dot s' with
           | p :: ps => String c p :: ps
           | [] => [String c EmptyString]
           end
  end.

(** [parts[:len(parts)-1]] *)
Definition dropLast (parts : list string) : list string :=
  take (length parts - 1) parts.

Record buildState := mkBuild {
  hp : list heapNode;
  cnt : Z;
  seen : gmap string nat;
  seenSoFar : string;
  seenSoFarPrev : string
}.

(** A [for ... range] loop whose body may panic. *)
Fixpoint forEach {A S : Type} (body : S → A → option S) (l : list A) (st : S)
  : option S :=
  match l with
  | [] => Some st
  | x :: l' => st' ← body st x; forEach body l' st'
  end.

(** The body of the inner loop of [constructTree]. *)
Definition visitPart (root : nat) (total : Z) (st : buildState) (part : string)
  : option buildState :=
  if decide (part = "") then Some st
  else
    let prev := seenSoFar st in
    let sofar := prev +:+ "." +:+ part in
    match seen st !! sofar with
    | Some n =>
        node ← hp st !! n;
        Some (mkBuild (<[n := bumpValue node]> (hp st)) (cnt st) (seen st)
                sofar prev)
    | None =>
        parent ← (if decide (prev ≠ "") then seen st !! prev else Some root);
        pnode ← hp st !! parent;
        let data :=
          mkHeapNode
            (mkFields (cnt st) (cluster (hFields pnode)) part total 1 [])
            [] (Some parent) in
        let dataPtr := length (hp st) in
        Some (mkBuild
                (<[parent := appendChild dataPtr (cnt st) pnode]>
                   (hp st ++ [data]))
                (wrap64 (cnt st + 1))
                (<[sofar := dataPtr]> (seen st))
                sofar prev)
    end.

(** The body of the outer loop. *)
Definition visitMetric (root : nat) (total : Z) (st : buildState)
    (metric : string) : option buildState :=
  let parts := split_dot metric in
  forEach (visitPart root total) (dropLast parts)
    (mkBuild (hp st) (cnt st) (seen st) "" (seenSoFarPrev st)).

Definition constructTree (root : nat) (metrics : list string)
    (h : list heapNode) : option buildState :=
  let cnt := wrap64 (rootElementId + 1) in
  let total := wrap64 (Z.of_nat (length metrics)) in
  forEach (visitMetric root total) metrics (mkBuild h cnt ∅ "" "").

(** The tree that hangs from a pointer. The fuel bounds the depth. *)
Fixpoint treeOf (fuel : nat) (h : list heapNode) (p : nat)
  : option flameGraphNode :=
  match fuel with
  | O => None
  | S fuel' =>
      n ← h !! p;
      cs ← mapM (treeOf fuel' h) (hChildren n);
      Some (Node (hFields n) cs)
  end.

(** The root [parseTree] allocates, and the heap after [constructTree]. *)
Definition rootNode (clusterName : string) (metrics : list string) : heapNode :=
  mkHeapNode
    (mkFields rootElementId clusterName "all"
       (wrap64 (Z.of_nat (length metrics)))
       (wrap64 (Z.of_nat (length metrics))) [])
    [] None.

Definition buildHeap (clusterName : string) (metrics : list string)
  : option buildState :=
  constructTree 0 metrics [rootNode clusterName metrics].

(** The tree [parseTree] holds after [constructTree]. *)
Definition buildTree (clusterName : string) (metrics : list string)
  : option flameGraphNode :=
  st ← buildHeap clusterName metrics;
  treeOf (length (hp st)) (hp st) 0.

Definition exampleMetrics : list string := ["a.b.c"; "a.b.d"; "a.e"].

(** The number of nested calls a traversal of the tree makes. *)
Fixpoint height (t : flameGraphNode) : nat :=
  let 'Node _ cs := t in
  S ((fix go (l : list flameGraphNode) : nat :=
        match l with
        | [] => O
        | c :: l' => Nat.max (height c) (go l')
        end) cs).

(** What the query handler does with the rows of a stored snapshot: key
    them by id, take the root from the row of [rootElementId], and
    reconstruct below it. *)
Definition reconstructFrom (fuel : nat) (rows : list clickhouseField)
    (minValue : Z) : option flameGraphNode :=
  let data := keyById rows in
  reconstructTree fuel data
    (Node (nodeOfRow (lookupRow data rootElementId)) []) minValue.

(** ** What the loops of [constructTree] visit *)

Fixpoint dotfree (s : string) : bool :=
  match s with
  | EmptyString => true
  | String c s' => negb (Ascii.eqb c "."%char) && dotfree s'
  end.

(** The keys the inner loop looks up in [seen], in order, when it starts
    with [seenSoFar = sofar] and ranges over [parts]. *)
Fixpoint pathKeys (sofar : string) (parts : list string) : list string :=
  match parts with
  | [] => []
  | part :: ps =>
      if decide (part = "") then pathKeys sofar ps
      else (sofar +:+ "." +:+ part)
             :: pathKeys (sofar +:+ "." +:+ part) ps
  end.

(** The value of [seenSoFar] after the parts. *)
Definition lastKey (sofar : string) (parts : list string) : string :=
  foldl (λ s part, if decide (part = "") then s else s +:+ "." +:+ part)
    sofar parts.

Definition keysOf (metric : string) : list string :=
  pathKeys "" (dropLast (split_dot metric)).

Definition allKeys (metrics : list string) : list string :=
  metrics ≫= keysOf.

Definition occurrences (k : string) (l : list string) : nat :=
  length (filter (λ x, x = k) l).

(** The counters of [constructTree] do not wrap on this input: fewer than
    2^64 names, and fewer than 2^64 - 2 lookups in [seen]. *)
Definition fits (metrics : list string) : Prop :=
  Z.of_nat (length metrics) < uint64_modulus ∧
  Z.of_nat (length (allKeys metrics)) + 2 < uint64_modulus.

(** The node a key stands for: the root for the empty key. *)
Definition nodeAt (sn : gmap string nat) (key : string) : option nat :=
  if decide (key ≠ "") then sn !! key else Some 0%nat.

(** ** The invariant of the loops

    [visited] are the keys looked up so far. *)
Record inv (cl : string) (total : Z) (visited : list string)
    (st : buildState) : Prop := mkInv {
  inv_nonempty : (0 < length (hp st))%nat;
  inv_cnt : cnt st = Z.of_nat (length (hp st)) + 1;
  inv_size : (length (hp st) ≤ 1 + length visited)%nat;
  inv_id : ∀ p n, hp st !! p = Some n → id (hFields n) = Z.of_nat p + 1;
  inv_children : ∀ p n c,
    hp st !! p = Some n → c ∈ hChildren n → (p < c < length (hp st))%nat;
  inv_children_nodup : ∀ p n, hp st !! p = Some n → NoDup (hChildren n);
  inv_childrenIds : ∀ p n,
    hp st !! p = Some n →
    childrenIds (hFields n) = (λ c, Z.of_nat c + 1) <$> hChildren n;
  inv_parent : ∀ p n c m,
    hp st !! p = Some n → hp st !! c = Some m →
    (c ∈ hChildren n ↔ hParent m = Some p);
  inv_parent_below : ∀ c m p,
    hp st !! c = Some m → hParent m = Some p → (p < c)%nat;
  inv_root : ∀ n,
    hp st !! 0%nat = Some n →
    hParent n = None ∧ Value (hFields n) = total ∧ Name (hFields n) = "all";
  inv_common : ∀ p n,
    hp st !! p = Some n →
    Total (hFields n) = total ∧ cluster (hFields n) = cl;
  inv_seen_range : ∀ k p,
    seen st !! k = Some p → (1 ≤ p < length (hp st))%nat;
  inv_seen_inj : ∀ k1 k2 p,
    seen st !! k1 = Some p → seen st !! k2 = Some p → k1 = k2;
  inv_seen_surj : ∀ p,
    (1 ≤ p < length (hp st))%nat → ∃ k, seen st !! k = Some p;
  inv_seen_dom : ∀ k, is_Some (seen st !! k) ↔ k ∈ visited;
  inv_key : ∀ k p n,
    seen st !! k = Some p → hp st !! p = Some n →
    ∃ prev part,
      k = prev +:+ "." +:+ part ∧ part ≠ "" ∧ dotfree part = true ∧
      Name (hFields n) = part ∧ hParent n = nodeAt (seen st) prev ∧
      is_Some (hParent n);
  inv_value : ∀ k p n,
    seen st !! k = Some p → hp st !! p = Some n →
    Value (hFields n) = Z.of_nat (occurrences k visited)
}.

(** ** Reading the heap as a tree *)

(** The pointers [treeOf] visits, in the order of [nodes]. *)
Fixpoint ptrsOf (fuel : nat) (h : list heapNode) (p : nat) : list nat :=
  match fuel with
  | O => []
  | S fuel' =>
      p :: (default [] (hChildren <$> h !! p) ≫= ptrsOf fuel' h)
  end.

(** [p] is reached from [q] along [parent] references. *)
Inductive anc (h : list heapNode) : nat → nat → Prop :=
  | anc_refl q : anc h q q
  | anc_step q m r p :
      h !! q = Some m → hParent m = Some r → anc h r p → anc h q p.

(** ** Trees up to the order of siblings

    Ids are local to a snapshot and follow the order of the input; so does
    the order in which the children of a node were appended. *)

Definition sameContent (f g : nodeFields) : Prop :=
  cluster f = cluster g ∧ Name f = Name g ∧
  Total f = Total g ∧ Value f = Value g.

(** The same tree up to ids and up to the order of the children of each
    node. *)
#[local] Unset Elimination Schemes.
Inductive treeSim : flameGraphNode → flameGraphNode → Prop :=
  | treeSim_node f1 cs1 f2 cs2 cs2' :
      sameContent f1 f2 →
      cs2 ≡ₚ cs2' →
      Forall2 treeSim cs1 cs2' →
      treeSim (Node f1 cs1) (Node f2 cs2).
#[local] Set Elimination Schemes.

(** The tree with its ids blanked. *)
Fixpoint forgetIds (t : flameGraphNode) : flameGraphNode :=
  let 'Node f cs := t in
  Node (mkFields 0 (cluster f) (Name f) (Total f) (Value f) [])
    (forgetIds <$> cs).

Definition metricsAB : list string := ["a.x"; "b.x"].
Definition metricsBA : list string := ["b.x"; "a.x"].

(** Below [c], whatever is at or under the floor is gone after trimming,
    with all of its subtree. *)
Definition gone (limit : Z) (c : flameGraphNode) : Prop :=
  NoDup (ids c) →
  ∀ m, m ∈ descendants c → Value (fields m) ≤ limit →
  ∀ n, n ∈ nodes m → id (fields n) ∉ ids (trimNodes c limit).

(** Two pointers, one in each of two heaps, that [seen] gives for one key. *)
Definition sameKey (sn1 sn2 : gmap string nat) (c1 c2 : nat) : Prop :=
  ∃ k, sn1 !! k = Some c1 ∧ sn2 !! k = Some c2.

(** [lia], also where the goal is not arithmetic. *)
Ltac arith := first [lia | exfalso; lia].

(** The values of a list of nodes, added up. *)
Definition sumValues (cs : list flameGraphNode) : Z :=
  foldr (λ c acc, Value (fields c) + acc) 0 cs.

(** The names whose walk looks the key up. *)
Definition namesWith (k : string) (metrics : list string) : list string :=
  filter (λ m, k ∈ keysOf m) metrics.

(** ** [getMetrics]: the loops that merge the slots of [responses]

    This is the part of [getMetrics] after [wg.Wait()]: the loops that read
    the slots of [responses] and build the returned slice. What the slots
    hold at that point is an input, and nothing is assumed about it. The
    goroutines that fill the slots share the variables [idx] and [ip] with
    the loop that starts them, so which fetch ends in which slot, and
    whether every host is fetched, depends on the schedule; that part is
    not described here.

    The first pair of loops puts every name of every slot into the map
    [responseUniq], a set. *)
Definition responseUniq (responses : list (list string)) : gset string :=
  foldl (λ uniq response, foldl (λ u metric, {[metric]} ∪ u) uniq response)
    ∅ responses.

(** The last loop ranges over the map, in an order Go does not fix:
    [response] is a slice that loop can build when the slots hold
    [responses]. *)
Definition mergedResponse (responses : list (list string))
    (response : list string) : Prop :=
  response ≡ₚ elements (responseUniq responses).

(** [strings.Join(parts, ".")] *)
Fixpoint join_dot (parts : list string) : string :=
  match parts with
  | [] => ""
  | [p] => p
  | p :: ps => p +:+ "." +:+ join_dot ps
  end.

(** ** [sendToClickhouse]

    What the row store answers during one write: which of the calls fail.
    [sExecErr i] tells whether the [i]-th [stmt.Exec] fails, counted
    from 0. *)
Record rowStore := mkRowStore {
  sOpenErr : bool;
  sPingErr : bool;
  sCreateErr : bool;
  sBeginErr : bool;
  sPrepareErr : bool;
  sExecErr : nat → bool;
  sCommitErr : bool
}.

(** The arguments of one [stmt.Exec]: the columns of the row, with the
    graph type the source fixes, and the date. *)
Definition insertOf (t now : Z) (r : clickhouseField) : clickhouseField * Z :=
  (mkRow t "graphite_metrics" (chCluster r) (chName r) (chTotal r) (chId r)
     (chValue r) (chChildrenIds r), now).

(** The write either ends the process ([logger.Fatal]) or returns, after
    some statements were passed to [stmt.Exec] and with the transaction
    committed or not. *)
Inductive sendResult :=
  | SendExited
  | SendReturned (executed : list (clickhouseField * Z)) (committed : bool).

(** The loop over [ch]: the statements passed to [stmt.Exec], the failing
    one included, and whether all of them succeeded. *)
Fixpoint execRows (execErr : nat → bool) (i : nat) (t now : Z)
    (ch : list clickhouseField) : list (clickhouseField * Z) * bool :=
  match ch with
  | [] => ([], true)
  | r :: ch' =>
      if execErr i then ([insertOf t now r], false)
      else
        let '(executed, ok) := execRows execErr (S i) t now ch' in
        (insertOf t now r :: executed, ok)
  end.

(** [now] is the time of the call, in seconds; [t := now.Unix()]. *)
Definition sendToClickhouse (db : rowStore) (node : flameGraphNode) (now : Z)
  : sendResult :=
  let t := now in
  let ch := convertToClickhouse node t in
  if sOpenErr db then SendExited
  else if sPingErr db then SendReturned [] false
  else if sCreateErr db then SendExited
  else if sBeginErr db then SendReturned [] false
  else if sPrepareErr db then SendReturned [] false
  else
    let '(executed, ok) := execRows (sExecErr db) 0 t now ch in
    if ok
    then if sCommitErr db
         then SendReturned executed false
         else SendReturned executed true
    else SendReturned executed false.

(** A row store on which every call succeeds, and one whose third
    [stmt.Exec] fails. *)
Definition healthyStore : rowStore :=
  mkRowStore false false false false false (λ _, false) false.
Definition failingStore : rowStore :=
  mkRowStore false false false false false (λ i, bool_decide (i = 2%nat)) false.


Definition requestChain : request := mkRequest "7" "c".

(** A row that lists itself among its children. *)
Definition loopData : gmap Z clickhouseField :=
  {[ 2 := mkRow 7 "graphite_metrics" "c" "a" 10 2 5 [2] ]}.
Definition loopRoot : flameGraphNode :=
  Node (mkFields 1 "c" "all" 10 10 [2]) [].

(** The rows of a snapshot whose node 2 lists itself, and a row store that
    answers with them. *)
Definition loopRows : list clickhouseField :=
  [ mkRow 7 "graphite_metrics" "c" "all" 10 1 10 [2];
    mkRow 7 "graphite_metrics" "c" "a" 10 2 5 [2] ].
Definition loopBackend : backend :=
  mkBackend false false (Some [Some 10]) (Some (Some <$> loopRows))
    false (λ _, 0) 4096.

(** The nodes below [t] in pre-order, each with the key under which
    [constructTree] holds it in [seen]: the key of a child is the key of its
    parent, a dot, and the name of the child; the key of the root is
    empty. *)
Fixpoint keyedBelow (key : string) (t : flameGraphNode)
  : list (string * flameGraphNode) :=
  (fix go (l : list flameGraphNode) : list (string * flameGraphNode) :=
     match l with
     | [] => []
     | c :: l' =>
         (key +:+ "." +:+ Name (fields c), c)
           :: keyedBelow (key +:+ "." +:+ Name (fields c)) c ++ go l'
     end) (Children t).

(** Two nodes named [b], under [a] and under [c]. *)
Definition metricsTwoB : list string :=
  ["a.b.x"; "a.x1"; "a.x2"; "c.b.x"; "c.b.y"; "c.x1"].

(* ===================================================================== *)
(** * Properties *)
(* ===================================================================== *)

(** ** Unfolding equations *)

Lemma nodes_unfold f cs : nodes (Node f cs) = Node f cs :: (cs ≫= nodes).
Proof.
  reflexivity.
Qed.

Lemma trimNodes_unfold f cs limit :
  trimNodes (Node f cs) limit =
  Node f ((λ n, trimNodes n limit) <$>
            filter (λ n, limit < Value (fields n)) cs).
Proof.
  simpl. f_equal. induction cs as [|c cs IH]; simpl; [done|].
  rewrite filter_cons. destruct (Z.ltb_spec limit (Value (fields c))).
  - rewrite decide_True by done. simpl. by rewrite IH.
  - rewrite decide_False by lia. done.
Qed.

Lemma convertToClickhouse_unfold f cs ts :
  convertToClickhouse (Node f cs) ts =
  rowOf f ts :: (cs ≫= λ n, rowOf (fields n) ts :: convertToClickhouse n ts).
Proof.
  reflexivity.
Qed.

Lemma fields_trimNodes t limit : fields (trimNodes t limit) = fields t.
Proof. by destruct t. Qed.

Lemma nodes_self t : t ∈ nodes t.
Proof. destruct t. rewrite nodes_unfold. left. Qed.

Lemma nodes_trans n m t : n ∈ nodes m → m ∈ nodes t → n ∈ nodes t.
Proof.
  revert m n. induction t as [f cs IH] using flameGraphNode_ind'.
  intros m n Hn Hm. rewrite nodes_unfold in Hm |- *.
  apply elem_of_cons in Hm as [->|Hm]; [by rewrite <- nodes_unfold|].
  right. apply list_elem_of_bind in Hm as (c & Hm & Hc).
  apply list_elem_of_bind. exists c. split; [|done].
  rewrite Forall_forall in IH. by eapply IH.
Qed.

Lemma descendants_unfold f cs : descendants (Node f cs) = cs ≫= nodes.
Proof. unfold descendants. by rewrite nodes_unfold. Qed.

(** ** Trimming *)

(** The surviving nodes are, in order, nodes of the tree before, with the
    fields they had. *)
Lemma trimNodes_fields_sublist t limit :
  (fields <$> nodes (trimNodes t limit)) `sublist_of` (fields <$> nodes t).
Proof.
  induction t as [f cs IH] using flameGraphNode_ind'.
  rewrite trimNodes_unfold, !nodes_unfold, !fmap_cons. simpl.
  apply sublist_skip.
  induction cs as [|c cs IHcs]; [done|].
  apply Forall_cons in IH as [Hc Hcs].
  rewrite filter_cons. case_decide; simpl.
  - rewrite !fmap_app. apply sublist_app; [done|by apply IHcs].
  - rewrite fmap_app. apply sublist_inserts_l. by apply IHcs.
Qed.

Lemma trimNodes_ids_sublist t limit :
  ids (trimNodes t limit) `sublist_of` ids t.
Proof.
  pose proof (fmap_sublist id _ _ (trimNodes_fields_sublist t limit)) as H.
  by rewrite <- !list_fmap_compose in H.
Qed.

Lemma ids_unfold f cs : ids (Node f cs) = id f :: (cs ≫= ids).
Proof.
  unfold ids. rewrite nodes_unfold, fmap_cons. simpl. f_equal.
  induction cs as [|c cs IH]; [done|].
  by rewrite !bind_cons, fmap_app, IH.
Qed.

Lemma elem_of_ids n t : n ∈ nodes t → id (fields n) ∈ ids t.
Proof. intros Hn. unfold ids. apply list_elem_of_fmap. by exists n. Qed.

Lemma trimNodes_forest_ids_sublist limit cs :
  (((λ n, trimNodes n limit) <$> filter (λ n, limit < Value (fields n)) cs)
     ≫= ids) `sublist_of` (cs ≫= ids).
Proof.
  induction cs as [|c cs IH]; [done|].
  rewrite filter_cons, bind_cons. case_decide.
  - rewrite fmap_cons, bind_cons.
    apply sublist_app; [apply trimNodes_ids_sublist|done].
  - by apply sublist_inserts_l.
Qed.

Lemma trimNodes_survivors_above t limit n :
  n ∈ descendants (trimNodes t limit) → limit < Value (fields n).
Proof.
  revert n. induction t as [f cs IH] using flameGraphNode_ind'. intros n.
  rewrite trimNodes_unfold, descendants_unfold.
  intros (c' & Hn & Hc')%list_elem_of_bind.
  apply list_elem_of_fmap in Hc' as (c & -> & Hc).
  apply list_elem_of_filter in Hc as [Hv Hc].
  destruct (trimNodes c limit) as [g ds] eqn:E.
  rewrite nodes_unfold in Hn. apply elem_of_cons in Hn as [->|Hn].
  - rewrite <- E, fields_trimNodes. done.
  - rewrite Forall_forall in IH. apply (IH c Hc).
    by rewrite E, descendants_unfold.
Qed.

Section absent.
Variable limit : Z.

Lemma trimNodes_forest_absent cs :
  Forall (gone limit) cs →
  NoDup (cs ≫= ids) →
  ∀ c m n, c ∈ cs → m ∈ nodes c → Value (fields m) ≤ limit → n ∈ nodes m →
  id (fields n) ∉
    (((λ n, trimNodes n limit) <$> filter (λ n, limit < Value (fields n)) cs)
       ≫= ids).
Proof.
  induction cs as [|c0 cs IHcs]; intros IH Hnd c m n Hc Hm Hv Hn.
  { by apply elem_of_nil in Hc. }
  apply Forall_cons in IH as [IH0 IH].
  rewrite bind_cons in Hnd. apply NoDup_app in Hnd as (Hnd0 & Hdisj & Hnd).
  pose proof (trimNodes_forest_ids_sublist limit cs) as Hsub.
  apply sublist_subseteq in Hsub.
  assert (id (fields n) ∈ ids c) as Hin
    by (apply elem_of_ids; by eapply nodes_trans).
  rewrite filter_cons.
  apply elem_of_cons in Hc as [->|Hc].
  - assert (id (fields n) ∉
              ((λ n, trimNodes n limit) <$>
                 filter (λ n, limit < Value (fields n)) cs) ≫= ids) as Hrest.
    { intros Hbad. by apply (Hdisj _ Hin), Hsub. }
    case_decide as Hkeep; [|done].
    rewrite fmap_cons, bind_cons. apply not_elem_of_app. split; [|done].
    destruct c0 as [f ds]. rewrite nodes_unfold in Hm.
    apply elem_of_cons in Hm as [->|Hm]; [simpl in *; lia|].
    apply (IH0 Hnd0 m); [by rewrite descendants_unfold|done|done].
  - assert (id (fields n) ∈ cs ≫= ids) as Hin'.
    { apply list_elem_of_bind. by exists c. }
    pose proof (IHcs IH Hnd c m n Hc Hm Hv Hn) as Hrest.
    case_decide as Hkeep; [|done].
    rewrite fmap_cons, bind_cons. apply not_elem_of_app. split; [|done].
    intros Hbad.
    apply (sublist_subseteq _ _ (trimNodes_ids_sublist c0 limit)) in Hbad.
    by apply (Hdisj _ Hbad).
Qed.

Lemma trimNodes_absent t : gone limit t.
Proof.
  induction t as [f cs IH] using flameGraphNode_ind'.
  intros Hnd m Hm Hv n Hn.
  rewrite ids_unfold in Hnd. apply NoDup_cons in Hnd as [Hroot Hnd].
  rewrite descendants_unfold in Hm.
  apply list_elem_of_bind in Hm as (c & Hm & Hc).
  rewrite trimNodes_unfold, ids_unfold. apply not_elem_of_cons. split.
  - intros Heq. apply Hroot. simpl. rewrite <- Heq.
    apply list_elem_of_bind. exists c. split; [|done].
    apply elem_of_ids. by eapply nodes_trans.
  - by eapply trimNodes_forest_absent.
Qed.
End absent.

(** C5 as amended. The node [trimNodes] is called on is never compared with
    the floor. Below it, every node that remains has a value above the
    floor, and a node whose value is at most the floor is gone with all of
    its subtree (no id of that subtree occurs in the result), whatever the
    values inside the subtree are. Absence is stated on ids, which are
    unique within a tree. *)
Theorem trimNodes_floor (t : flameGraphNode) (limit : Z) :
  NoDup (ids t) →
  (∀ n, n ∈ descendants (trimNodes t limit) → limit < Value (fields n)) ∧
  (∀ m, m ∈ descendants t → Value (fields m) ≤ limit →
     ∀ n, n ∈ nodes m → id (fields n) ∉ ids (trimNodes t limit)).
Proof.
  intros Hnd. split.
  - intros n. apply trimNodes_survivors_above.
  - by apply trimNodes_absent.
Qed.

Lemma exampleChain_ids_NoDup : NoDup (ids exampleChain).
Proof.
  apply (bool_decide_unpack _). vm_compute. exact I.
Qed.

Lemma trimNodes_floor_witness :
  NoDup (ids exampleChain) ∧
  (∀ n, n ∈ descendants (trimNodes exampleChain 5) → 5 < Value (fields n)) ∧
  (∀ m, m ∈ descendants exampleChain → Value (fields m) ≤ 5 →
     ∀ n, n ∈ nodes m → id (fields n) ∉ ids (trimNodes exampleChain 5)).
Proof.
  split; [exact exampleChain_ids_NoDup|].
  exact (trimNodes_floor exampleChain 5 exampleChain_ids_NoDup).
Defined.

(** The root survives any floor: with no names collected its value is 0,
    the floor is 0, and it is still there after trimming. *)
Lemma trimNodes_keeps_root_at_floor :
  ¬ (∀ n, n ∈ nodes (trimNodes emptyRoot 0) → 0 < Value (fields n)).
Proof.
  intros H. specialize (H _ (nodes_self _)). vm_compute in H. discriminate.
Qed.

(** The nodes of the trimmed tree are, in order, the trimmed images of
    nodes of the tree before. *)
Lemma trimNodes_survivors t limit :
  ∃ survivors,
    survivors `sublist_of` nodes t ∧
    nodes (trimNodes t limit) = (λ n, trimNodes n limit) <$> survivors.
Proof.
  induction t as [f cs IH] using flameGraphNode_ind'.
  assert (∃ l, l `sublist_of` (cs ≫= nodes) ∧
               ((λ n, trimNodes n limit) <$>
                  filter (λ n, limit < Value (fields n)) cs) ≫= nodes
               = (λ n, trimNodes n limit) <$> l) as (l & Hsub & Heq).
  { induction cs as [|c cs IHcs]; [by exists []|].
    apply Forall_cons in IH as [(lc & Hc & Heqc) IH].
    destruct (IHcs IH) as (l & Hl & Heql).
    rewrite filter_cons, bind_cons. case_decide.
    - exists (lc ++ l). split; [by apply sublist_app|].
      by rewrite fmap_cons, bind_cons, fmap_app, Heqc, Heql.
    - exists l. split; [by apply sublist_inserts_l|done]. }
  exists (Node f cs :: l). rewrite nodes_unfold. split.
  - by apply sublist_skip.
  - rewrite fmap_cons, trimNodes_unfold, nodes_unfold, Heq.
    by rewrite <- trimNodes_unfold.
Qed.

(** C8. Trimming writes no field but [Children]: the nodes of the trimmed
    tree are, in order, nodes of the tree before (the survivors), each with
    exactly the id, cluster, name, total, value and childrenIds it had; in
    particular the root, and no value or total is recomputed from the
    children that remain. *)
Theorem trimNodes_frame (t : flameGraphNode) (limit : Z) :
  fields (trimNodes t limit) = fields t ∧
  ∃ survivors,
    survivors `sublist_of` nodes t ∧
    nodes (trimNodes t limit) = (λ n, trimNodes n limit) <$> survivors ∧
    Forall2 (λ before after, fields after = fields before)
      survivors (nodes (trimNodes t limit)).
Proof.
  split; [apply fields_trimNodes|].
  destruct (trimNodes_survivors t limit) as (l & Hsub & Heq).
  exists l. split_and!; [done..|]. rewrite Heq.
  apply Forall2_fmap_r, Forall_Forall2_diag, Forall_forall.
  intros n _. apply fields_trimNodes.
Qed.

(** Where the root loses a child, its childrenIds no longer match. *)
Lemma trimNodes_breaks_parallel f cs limit :
  parallelHere (Node f cs) →
  Exists (λ c, Value (fields c) ≤ limit) cs →
  ¬ parallelHere (trimNodes (Node f cs) limit).
Proof.
  unfold parallelHere. rewrite trimNodes_unfold. simpl. intros Hp Hex Hq.
  rewrite Hp in Hq. apply (f_equal length) in Hq.
  rewrite !length_fmap in Hq.
  assert (length (filter (λ n, (limit < Value (fields n))%Z) cs)
          < length cs)%nat;
    [|lia].
  clear -Hex. induction Hex as [c cs Hc|c cs Hex IH]; rewrite filter_cons.
  - rewrite decide_False by lia. simpl.
    pose proof (length_filter (λ n, limit < Value (fields n)) cs). lia.
  - case_decide; simpl; lia.
Qed.

(** C10. Trimming never writes [childrenIds]: every surviving node carries
    the list it had before. So the list can name children that are gone:
    in the chain root -> a -> b trimmed at 5, the root still lists the id
    of [a], which is no longer among its children. *)
Theorem trimNodes_childrenIds_stale :
  (∀ t limit,
     childrenIds (fields (trimNodes t limit)) = childrenIds (fields t) ∧
     ((λ n, (id (fields n), childrenIds (fields n))) <$>
        nodes (trimNodes t limit))
       `sublist_of`
     ((λ n, (id (fields n), childrenIds (fields n))) <$> nodes t)) ∧
  (∃ t limit i,
     parallel t ∧
     i ∈ childrenIds (fields (trimNodes t limit)) ∧
     i ∉ (λ c, id (fields c)) <$> Children (trimNodes t limit)).
Proof.
  split.
  - intros t limit. split; [by rewrite fields_trimNodes|].
    pose proof (fmap_sublist (λ f, (id f, childrenIds f)) _ _
                  (trimNodes_fields_sublist t limit)) as H.
    by rewrite <- !list_fmap_compose in H.
  - exists exampleChain, 5, 2. split; [|split].
    + unfold parallel. vm_compute. repeat constructor.
    + vm_compute. left.
    + vm_compute. apply not_elem_of_nil.
Qed.

(** ** Flattening *)

Lemma convertToClickhouse_length t ts :
  (length (convertToClickhouse t ts) + 1 = 2 * length (nodes t))%nat.
Proof.
  induction t as [f cs IH] using flameGraphNode_ind'.
  rewrite convertToClickhouse_unfold, nodes_unfold. simpl.
  induction cs as [|c cs IHcs]; [done|].
  apply Forall_cons in IH as [Hc Hcs]. specialize (IHcs Hcs).
  rewrite !bind_cons. simpl. rewrite !length_app. lia.
Qed.

(** Every row is the row of a node of the tree, with that node's id and
    childrenIds, and every node has a row. *)
Lemma convertToClickhouse_rows t ts r :
  r ∈ convertToClickhouse t ts ↔ ∃ n, n ∈ nodes t ∧ r = rowOf (fields n) ts.
Proof.
  revert r. induction t as [f cs IH] using flameGraphNode_ind'. intros r.
  rewrite convertToClickhouse_unfold, nodes_unfold.
  rewrite elem_of_cons, list_elem_of_bind. rewrite Forall_forall in IH.
  split.
  - intros [->|(c & Hr & Hc)].
    + exists (Node f cs). split; [left|done].
    + apply elem_of_cons in Hr as [->|Hr].
      * exists c. split; [|done]. right. apply list_elem_of_bind.
        exists c. split; [apply nodes_self|done].
      * apply (IH c Hc) in Hr as (n & Hn & ->). exists n. split; [|done].
        right. apply list_elem_of_bind. by exists c.
  - intros (n & Hn & ->). apply elem_of_cons in Hn as [->|Hn]; [by left|].
    right. apply list_elem_of_bind in Hn as (c & Hn & Hc).
    exists c. split; [|done]. right. apply (IH c Hc). by exists n.
Qed.

(** C2, at a tree of three nodes: the rows of the two nodes below the root
    are emitted twice each, five rows for three nodes. *)
Theorem convertToClickhouse_repeats_rows :
  length (nodes exampleChain) = 3%nat ∧
  chId <$> convertToClickhouse exampleChain 0 = [1; 2; 2; 3; 3].
Proof.
  split; reflexivity.
Qed.

(** ** The retry loop *)

Lemma getList_retry_done net tries inputMetrics calls :
  tries > 3 → getList_retry net tries inputMetrics calls = ([], calls).
Proof.
  intros H. simp getList_retry. destruct (decide (tries > 3)); [done|lia].
Qed.

Lemma getList_retry_step net tries inputMetrics calls :
  tries ≤ 3 →
  getList_retry net tries inputMetrics calls =
  if failed (net calls)
  then getList_retry net (tries + 1) (stored (net calls) inputMetrics) (S calls)
  else (stored (net calls) inputMetrics, S calls).
Proof.
  intros H. rewrite getList_retry_equation_1.
  destruct (decide (tries > 3)) as [?|Hn]; [lia|]. simpl.
  destruct (net calls) as [|status [] store]; simpl; reflexivity.
Qed.

Lemma getList_closed_form net :
  getList net =
  if failed (net 0%nat) then
    if failed (net 1%nat) then
      if failed (net 2%nat) then ([], 3%nat)
      else (stored (net 2%nat) (stored (net 1%nat) (stored (net 0%nat) [])),
            3%nat)
    else (stored (net 1%nat) (stored (net 0%nat) []), 2%nat)
  else (stored (net 0%nat) [], 1%nat).
Proof.
  unfold getList. rewrite getList_retry_step by lia.
  destruct (failed (net 0%nat)); [|done]. simpl.
  rewrite getList_retry_step by lia.
  destruct (failed (net 1%nat)); [|done]. simpl.
  rewrite getList_retry_step by lia.
  destruct (failed (net 2%nat)); [|done]. simpl.
  by rewrite getList_retry_done by lia.
Qed.

(** C7 as amended. An attempt that fails at transport, or whose body does
    not decode, is followed by another one, three attempts at most. The
    fetch ends at the first attempt [k] that does not fail, after [k + 1]
    calls, and returns [inputMetrics] as the decode of that attempt leaves
    it; when that decode stores the list [names] of the body, the result
    is [names]. After three failed attempts the result is the empty list.
    The status code plays no part: a response whose body decodes ends the
    fetch whatever its status is. *)
Theorem getList_retries (net : nat → attempt) :
  (∀ k, (k < 3)%nat →
        (∀ j, (j < k)%nat → failed (net j) = true) →
        failed (net k) = false →
        getList net = (inputAfter net (S k), S k)) ∧
  (∀ k status store,
        (k < 3)%nat →
        (∀ j, (j < k)%nat → failed (net j) = true) →
        net k = Response status false store →
        getList net = (store (inputAfter net k), S k)) ∧
  (∀ k status names,
        (k < 3)%nat →
        (∀ j, (j < k)%nat → failed (net j) = true) →
        net k = Response status false (λ _, names) →
        getList net = (names, S k)) ∧
  ((∀ j, (j < 3)%nat → failed (net j) = true) → getList net = ([], 3%nat)) ∧
  (∀ status store,
     net 0%nat = Response status false store → getList net = (store [], 1%nat)).
Proof.
  assert (∀ k, (k < 3)%nat →
            (∀ j, (j < k)%nat → failed (net j) = true) →
            failed (net k) = false →
            getList net = (inputAfter net (S k), S k)) as Hfirst.
  { rewrite getList_closed_form. intros k Hk Hbefore Hok.
    destruct k as [|[|[|k]]]; [| | |lia].
    - by rewrite Hok.
    - rewrite (Hbefore 0%nat) by lia. by rewrite Hok.
    - rewrite (Hbefore 0%nat), (Hbefore 1%nat) by lia. by rewrite Hok. }
  split_and!.
  - exact Hfirst.
  - intros k status store Hk Hbefore Hnet.
    rewrite (Hfirst k Hk Hbefore) by (by rewrite Hnet).
    simpl. by rewrite Hnet.
  - intros k status names Hk Hbefore Hnet.
    rewrite (Hfirst k Hk Hbefore) by (by rewrite Hnet).
    simpl. by rewrite Hnet.
  - intros Hall. rewrite getList_closed_form. by rewrite !Hall by lia.
  - intros status store Hnet. rewrite getList_closed_form. by rewrite Hnet.
Qed.

Lemma getList_retries_witness :
  ((1 < 3)%nat ∧
   (∀ j, (j < 1)%nat → failed (lateAnswer j) = true) ∧
   failed (lateAnswer 1%nat) = false) ∧
  getList lateAnswer = (["carbon.agents.a.cpu"], 2%nat).
Proof.
  assert (∀ j, (j < 1)%nat → failed (lateAnswer j) = true) as H.
  { intros j Hj. destruct j; [reflexivity | lia]. }
  split; [split; [lia | split; [exact H | reflexivity]] |].
  exact (proj1 (getList_retries lateAnswer) 1%nat ltac:(lia) H eq_refl).
Defined.

(** A 500 whose body decodes is not retried: one call, and its names are
    the result. *)
Lemma getList_accepts_server_error :
  (∀ k, ∃ store, serverError k = Response 500 false store) ∧
  getList serverError = (["carbon.agents.a.cpu"], 1%nat).
Proof.
  split; [intros k; by eexists|]. by rewrite getList_closed_form.
Qed.

(** ** The query handler *)

Lemma getHandler_missing_parameter db req w :
  form_ts req = "" ∨ form_cluster req = "" →
  getHandler db req w = Exited 1.
Proof.
  intros H. unfold getHandler.
  assert (bool_decide (form_ts req = "") || bool_decide (form_cluster req = "")
          = true) as ->; [|done].
  apply orb_true_iff.
  destruct H as [H|H]; [left|right]; by apply bool_decide_eq_true.
Qed.

(** C1, at a request without [ts] and at a request without [cluster]: the
    handler ends the process with exit code 1 before the 400 is written, so
    no response is sent and the service does not keep running. *)
Theorem getHandler_missing_parameter_exits :
  getHandler healthyBackend requestNoTs emptyWriter = Exited 1 ∧
  getHandler healthyBackend requestNoCluster emptyWriter = Exited 1.
Proof.
  split; reflexivity.
Qed.


(** ** Reconstruction from the rows of a tree *)

Lemma reconstructTree_unfold fuel data f cs minValue :
  reconstructTree (S fuel) data (Node f cs) minValue =
  new ← mapM (λ i, reconstructTree fuel data
                     (Node (nodeOfRow (lookupRow data i)) []) minValue)
          (filter (λ i, minValue < chValue (lookupRow data i)) (childrenIds f));
  Some (Node f (cs ++ new)).
Proof.
  simpl. f_equal. induction (childrenIds f) as [|i l IH]; [done|].
  rewrite filter_cons. destruct (Z.ltb_spec minValue (chValue (lookupRow data i))).
  - rewrite decide_True by done. rewrite IH. done.
  - rewrite decide_False by lia. done.
Qed.

Lemma keyById_foldl_absent rows (acc : gmap Z clickhouseField) i :
  Forall (λ r, chId r ≠ i) rows →
  foldl (λ data r, <[chId r := r]> data) acc rows !! i = acc !! i.
Proof.
  revert acc. induction rows as [|x rows IH]; intros acc Hall; [done|].
  apply Forall_cons in Hall as [Hx Hall]. simpl.
  rewrite IH by done. by rewrite lookup_insert_ne.
Qed.

Lemma keyById_foldl_lookup rows (acc : gmap Z clickhouseField) r :
  r ∈ rows →
  (∀ r', r' ∈ rows → chId r' = chId r → r' = r) →
  foldl (λ data r, <[chId r := r]> data) acc rows !! chId r = Some r.
Proof.
  revert acc. induction rows as [|x rows IH]; intros acc Hin Huniq.
  { by apply elem_of_nil in Hin. }
  simpl.
  destruct (decide (Exists (λ r', chId r' = chId r) rows)) as [Hex|Hno].
  - apply Exists_exists in Hex as (r' & Hr' & Heq).
    assert (r' = r) as -> by (apply Huniq; [by right|done]).
    apply IH; [done|]. intros r'' ? ?. apply Huniq; [by right|done].
  - apply not_Exists_Forall in Hno; [|intros ?; apply _].
    rewrite keyById_foldl_absent by done.
    assert (x = r) as ->.
    { apply elem_of_cons in Hin as [->|Hin]; [done|].
      rewrite Forall_forall in Hno. by destruct (Hno r Hin). }
    by rewrite lookup_insert_eq.
Qed.

Lemma keyById_lookup rows r :
  r ∈ rows →
  (∀ r', r' ∈ rows → chId r' = chId r → r' = r) →
  lookupRow (keyById rows) (chId r) = r.
Proof.
  intros Hin Huniq. unfold lookupRow, keyById.
  by rewrite keyById_foldl_lookup.
Qed.

Lemma nodeOfRow_rowOf f ts : nodeOfRow (rowOf f ts) = f.
Proof. by destruct f. Qed.

Lemma NoDup_fmap_eq {A B} (f : A → B) (l : list A) x y :
  NoDup (f <$> l) → x ∈ l → y ∈ l → f x = f y → x = y.
Proof.
  induction l as [|a l IH]; intros Hnd Hx Hy Heq.
  { by apply elem_of_nil in Hx. }
  rewrite fmap_cons in Hnd. apply NoDup_cons in Hnd as [Ha Hnd].
  apply elem_of_cons in Hx as [->|Hx]; apply elem_of_cons in Hy as [->|Hy].
  - done.
  - destruct Ha. rewrite Heq. by apply list_elem_of_fmap_2.
  - destruct Ha. rewrite <- Heq. by apply list_elem_of_fmap_2.
  - by apply IH.
Qed.

(** With unique ids, the row found under the id of a node is its row. *)
Lemma keyById_convert_lookup t ts n :
  NoDup (ids t) → n ∈ nodes t →
  lookupRow (keyById (convertToClickhouse t ts)) (id (fields n))
  = rowOf (fields n) ts.
Proof.
  intros Hnd Hn.
  change (id (fields n)) with (chId (rowOf (fields n) ts)).
  apply keyById_lookup.
  - apply convertToClickhouse_rows. by exists n.
  - intros r' (m & Hm & ->)%convertToClickhouse_rows Hid. simpl in Hid.
    by rewrite (NoDup_fmap_eq (λ n, id (fields n)) (nodes t) m n).
Qed.

Lemma height_child f cs c : c ∈ cs → (height c < height (Node f cs))%nat.
Proof.
  simpl. induction cs as [|c' cs IH]; intros Hc.
  { by apply elem_of_nil in Hc. }
  apply elem_of_cons in Hc as [->|Hc]; [lia|]. specialize (IH Hc). lia.
Qed.

Lemma nodes_child f cs c n : c ∈ cs → n ∈ nodes c → n ∈ nodes (Node f cs).
Proof.
  intros Hc Hn. rewrite nodes_unfold. right.
  apply list_elem_of_bind. by exists c.
Qed.

Section reconstruct.
Variables (data : gmap Z clickhouseField) (ts limit : Z).

Lemma reconstruct_children fuel cs :
  Forall (λ c,
    lookupRow data (id (fields c)) = rowOf (fields c) ts ∧
    reconstructTree fuel data (Node (fields c) []) limit
    = Some (trimNodes c limit)) cs →
  mapM (λ i, reconstructTree fuel data
               (Node (nodeOfRow (lookupRow data i)) []) limit)
    (filter (λ i, limit < chValue (lookupRow data i))
       ((λ c, id (fields c)) <$> cs))
  = Some ((λ n, trimNodes n limit) <$>
            filter (λ n, limit < Value (fields n)) cs).
Proof.
  induction cs as [|c cs IH]; intros Hall; [done|].
  apply Forall_cons in Hall as [[Hrow Hrec] Hall].
  specialize (IH Hall).
  rewrite fmap_cons, !filter_cons, Hrow. simpl.
  case_decide; [|done].
  simpl. rewrite Hrow, nodeOfRow_rowOf, Hrec. simpl.
  rewrite IH. done.
Qed.

Lemma reconstructTree_trimNodes t :
  (∀ n, n ∈ nodes t →
        lookupRow data (id (fields n)) = rowOf (fields n) ts) →
  parallel t →
  ∀ fuel, (height t < fuel)%nat →
  reconstructTree fuel data (Node (fields t) []) limit
  = Some (trimNodes t limit).
Proof.
  induction t as [f cs IH] using flameGraphNode_ind'.
  intros Hrows Hpar fuel Hfuel.
  destruct fuel as [|fuel]; [lia|].
  rewrite reconstructTree_unfold, trimNodes_unfold. simpl.
  unfold parallel in Hpar. rewrite Forall_forall in Hpar.
  rewrite (Hpar (Node f cs) (nodes_self _)). simpl.
  rewrite reconstruct_children; [done|].
  rewrite Forall_forall in IH |- *. intros c Hc. split.
  - apply Hrows. eapply nodes_child; [done|apply nodes_self].
  - apply IH; [done| | |].
    + intros n Hn. apply Hrows. by eapply nodes_child.
    + unfold parallel. rewrite Forall_forall. intros n Hn.
      apply Hpar. by eapply nodes_child.
    + pose proof (height_child f cs c Hc). lia.
Qed.
End reconstruct.

(** Flatten, key by id, reconstruct: the result is the trimmed tree, for
    every tree with unique ids, the root id on the root, and childrenIds
    that list the ids of the children. *)
Lemma reconstructFrom_trimNodes t ts limit fuel :
  NoDup (ids t) → parallel t → id (fields t) = rootElementId →
  (height t < fuel)%nat →
  reconstructFrom fuel (convertToClickhouse t ts) limit
  = Some (trimNodes t limit).
Proof.
  intros Hnd Hpar Hroot Hfuel. unfold reconstructFrom.
  rewrite <- Hroot, (keyById_convert_lookup t ts t Hnd (nodes_self t)).
  rewrite nodeOfRow_rowOf.
  apply (reconstructTree_trimNodes _ ts); [|done|done].
  intros n Hn. by apply keyById_convert_lookup.
Qed.

Lemma trimNodes_id t limit :
  (∀ n, n ∈ descendants t → limit < Value (fields n)) →
  trimNodes t limit = t.
Proof.
  induction t as [f cs IH] using flameGraphNode_ind'. intros Habove.
  rewrite trimNodes_unfold. f_equal.
  rewrite descendants_unfold in Habove.
  induction cs as [|c cs IHcs]; [done|].
  apply Forall_cons in IH as [IHc IH].
  rewrite filter_cons, decide_True.
  - rewrite fmap_cons. f_equal.
    + apply IHc. intros n Hn. apply Habove. rewrite bind_cons.
      apply elem_of_app. left. destruct c as [g ds].
      rewrite nodes_unfold. right. by rewrite <- (descendants_unfold g ds).
    + apply IHcs; [done|]. intros n Hn. apply Habove. rewrite bind_cons.
      apply elem_of_app. by right.
  - apply Habove. rewrite bind_cons. apply elem_of_app. left.
    apply nodes_self.
Qed.

(** ** Loops *)

Lemma forEach_invariant {A S : Type} (body : S → A → option S)
    (P : list A → S → Prop) (l : list A) (st : S) :
  P [] st →
  (∀ pre x post s, l = pre ++ x :: post → P pre s →
     ∃ s', body s x = Some s' ∧ P (pre ++ [x]) s') →
  ∃ s', forEach body l st = Some s' ∧ P l s'.
Proof.
  intros Hinit Hstep.
  assert (∀ rest pre s, l = pre ++ rest → P pre s →
            ∃ s', forEach body rest s = Some s' ∧ P l s') as Hgen.
  { induction rest as [|x rest IH]; intros pre s Hl HP.
    - rewrite app_nil_r in Hl. subst. by exists s.
    - destruct (Hstep pre x rest s Hl HP) as (s' & Hbody & HP').
      simpl. rewrite Hbody. simpl.
      apply (IH (pre ++ [x])); [|done]. by rewrite <- app_assoc. }
  by apply (Hgen l []).
Qed.

(** ** Strings *)

Lemma string_length_app (a b : string) :
  String.length (a +:+ b) = (String.length a + String.length b)%nat.
Proof. induction a as [|c a IH]; simpl; [done|]. by rewrite IH. Qed.

Lemma occurrences_app k l1 l2 :
  occurrences k (l1 ++ l2) = (occurrences k l1 + occurrences k l2)%nat.
Proof. unfold occurrences. by rewrite filter_app, length_app. Qed.

Lemma occurrences_singleton_eq k : occurrences k [k] = 1%nat.
Proof. unfold occurrences. rewrite filter_cons, decide_True by done. done. Qed.

Lemma occurrences_singleton_ne k k' : k' ≠ k → occurrences k [k'] = 0%nat.
Proof. intros. unfold occurrences. by rewrite filter_cons, decide_False. Qed.

Lemma occurrences_absent k l : k ∉ l → occurrences k l = 0%nat.
Proof.
  intros Hk. unfold occurrences.
  induction l as [|x l IH]; [done|].
  apply not_elem_of_cons in Hk as [Hx Hk].
  rewrite filter_cons, decide_False by done. by apply IH.
Qed.

Lemma occurrences_le_length k l : (occurrences k l ≤ length l)%nat.
Proof. apply length_filter. Qed.

(** ** One step of the inner loop keeps the invariant *)

Lemma bump_lookup (h : list heapNode) p node q n' :
  h !! p = Some node →
  <[p := bumpValue node]> h !! q = Some n' →
  ∃ n, h !! q = Some n ∧
       hChildren n' = hChildren n ∧ hParent n' = hParent n ∧
       id (hFields n') = id (hFields n) ∧
       cluster (hFields n') = cluster (hFields n) ∧
       Name (hFields n') = Name (hFields n) ∧
       Total (hFields n') = Total (hFields n) ∧
       childrenIds (hFields n') = childrenIds (hFields n) ∧
       ((q ≠ p ∧ Value (hFields n') = Value (hFields n)) ∨
        (q = p ∧ Value (hFields n') = wrap64 (Value (hFields n) + 1))).
Proof.
  intros Hp Hq. apply list_lookup_insert_Some in Hq as [(-> & <- & Hlt)|[Hne Hq]].
  - exists node. repeat split; try done. by right.
  - exists n'. repeat split; try done. left. split; [congruence|done].
Qed.

Lemma inv_bump cl total visited st k p node s1 s2 :
  inv cl total visited st →
  seen st !! k = Some p → hp st !! p = Some node →
  Z.of_nat (length visited) + 3 < uint64_modulus →
  inv cl total (visited ++ [k])
    (mkBuild (<[p := bumpValue node]> (hp st)) (cnt st) (seen st) s1 s2).
Proof.
  intros I Hk Hp Hbound.
  pose proof (bump_lookup (hp st) p node) as L.
  constructor; simpl; rewrite ?length_insert.
  - apply I.
  - apply I.
  - rewrite length_app. pose proof (inv_size _ _ _ _ I). simpl. lia.
  - intros q n' (n & Hn & ? & ? & -> & _)%L; [|done]. by eapply inv_id.
  - intros q n' c (n & Hn & -> & _)%L; [|done]. by eapply inv_children.
  - intros q n' (n & Hn & -> & _)%L; [|done]. by eapply inv_children_nodup.
  - intros q n' (n & Hn & -> & ? & ? & ? & ? & ? & -> & _)%L; [|done].
    by eapply inv_childrenIds.
  - intros q n' c m' (n & Hn & -> & _)%L (m & Hm & _ & -> & _)%L; [|done..].
    by eapply inv_parent.
  - intros c m' q (m & Hm & _ & -> & _)%L; [|done]. by eapply inv_parent_below.
  - intros n' (n & Hn & _ & -> & _ & _ & -> & _ & _ & [[_ ->]|[<- _]])%L;
      [by eapply inv_root| |done].
    apply (inv_seen_range _ _ _ _ I) in Hk. lia.
  - intros q n' (n & Hn & _ & _ & _ & -> & _ & -> & _)%L; [|done].
    by eapply inv_common.
  - by apply (inv_seen_range _ _ _ _ I).
  - by apply (inv_seen_inj _ _ _ _ I).
  - by apply (inv_seen_surj _ _ _ _ I).
  - intros k'. rewrite (inv_seen_dom _ _ _ _ I), elem_of_app, list_elem_of_singleton.
    split; [by left|]. intros [?| ->]; [done|].
    apply (inv_seen_dom _ _ _ _ I). by eexists.
  - intros k' q n' Hk' (n & Hn & _ & -> & _ & _ & -> & _)%L; [|done].
    by eapply inv_key.
  - intros k' q n' Hk' (n & Hn & _ & _ & _ & _ & _ & _ & _ & Hv)%L; [|done].
    pose proof (inv_value _ _ _ _ I k' q n Hk' Hn) as Hval.
    rewrite occurrences_app.
    destruct Hv as [[Hne ->]|[-> ->]].
    + rewrite occurrences_singleton_ne; [rewrite Hval; f_equal; lia|].
      intros ->. apply Hne. congruence.
    + assert (k' = k) as -> by (by eapply inv_seen_inj).
      rewrite occurrences_singleton_eq, Hval.
      pose proof (occurrences_le_length k visited).
      unfold wrap64. rewrite Z.mod_small; lia.
Qed.

Lemma alloc_lookup (h : list heapNode) parent pnode pnode' data :
  h !! parent = Some pnode →
  ∀ q n',
  <[parent := pnode']> (h ++ [data]) !! q = Some n' →
  (q = parent ∧ n' = pnode') ∨
  (q = length h ∧ q ≠ parent ∧ n' = data) ∨
  (q ≠ parent ∧ q ≠ length h ∧ h !! q = Some n').
Proof.
  intros Hp q n' Hq. apply lookup_lt_Some in Hp as Hlt.
  apply list_lookup_insert_Some in Hq as [(-> & <- & _)|[Hne Hq]]; [by left|].
  right. apply lookup_app_Some in Hq as [Hq|[Hge Hq]].
  - right. apply lookup_lt_Some in Hq as ?. repeat split; [congruence|lia|done].
  - left. apply list_lookup_singleton_Some in Hq as [Hz ->].
    repeat split; [lia|congruence].
Qed.

Lemma nodeAt_insert (sn : gmap string nat) key k p x :
  sn !! k = None → nodeAt sn key = Some x → nodeAt (<[k := p]> sn) key = Some x.
Proof.
  unfold nodeAt. intros Hk. case_decide; [|done].
  intros Hx. rewrite lookup_insert_ne; [done|]. intros ->. congruence.
Qed.

Lemma inv_alloc cl total visited st prev part parent pnode s1 s2 :
  inv cl total visited st →
  seen st !! (prev +:+ "." +:+ part) = None →
  part ≠ "" → dotfree part = true →
  nodeAt (seen st) prev = Some parent →
  hp st !! parent = Some pnode →
  Z.of_nat (length visited) + 3 < uint64_modulus →
  inv cl total (visited ++ [prev +:+ "." +:+ part])
    (mkBuild
       (<[parent := appendChild (length (hp st)) (cnt st) pnode]>
          (hp st ++
             [mkHeapNode
                (mkFields (cnt st) (cluster (hFields pnode)) part total 1 [])
                [] (Some parent)]))
       (wrap64 (cnt st + 1))
       (<[prev +:+ "." +:+ part := length (hp st)]> (seen st))
       s1 s2).
Proof.
  intros I Hfresh Hpart Hdot Hparent Hpnode Hbound.
  set (sofar := prev +:+ "." +:+ part) in *.
  set (data := mkHeapNode _ _ _).
  pose proof (alloc_lookup (hp st) parent pnode
                (appendChild (length (hp st)) (cnt st) pnode) data Hpnode) as A.
  pose proof (lookup_lt_Some _ _ _ Hpnode) as HparentL. 
  pose proof (inv_size _ _ _ _ I) as Hsize. 
  pose proof (inv_cnt _ _ _ _ I) as Hcnt. 
  assert (sofar ∉ visited) as Hnotin.
  { intros Hin. apply (inv_seen_dom _ _ _ _ I) in Hin as [? ?]. congruence. }
  constructor; simpl; rewrite ?length_insert, ?length_app ; simpl.
  - arith.
  - rewrite Hcnt. unfold wrap64. rewrite Z.mod_small; lia.
  - arith.
  - intros q n' [[-> ->]|[(-> & _ & ->)|(? & ? & Hq)]]%A; simpl.
    + by eapply inv_id.
    + arith.
    + by eapply inv_id.
  - intros q n' c [[-> ->]|[(-> & _ & ->)|(? & ? & Hq)]]%A; simpl.
    + intros [Hc| ->%list_elem_of_singleton]%elem_of_app; [|arith].
      pose proof (inv_children _ _ _ _ I _ _ _ Hpnode Hc). arith.
    + by intros ?%elem_of_nil.
    + intros Hc. pose proof (inv_children _ _ _ _ I _ _ _ Hq Hc). arith.
  - intros q n' [[-> ->]|[(-> & _ & ->)|(? & ? & Hq)]]%A; simpl.
    + apply NoDup_app. split; [by eapply inv_children_nodup|]. split.
      * intros c Hc ->%list_elem_of_singleton.
        pose proof (inv_children _ _ _ _ I _ _ _ Hpnode Hc). arith.
      * apply NoDup_singleton.
    + apply NoDup_nil_2.
    + by eapply inv_children_nodup.
  - intros q n' [[-> ->]|[(-> & _ & ->)|(? & ? & Hq)]]%A; simpl.
    + rewrite fmap_app. simpl. rewrite Hcnt. f_equal.
      by eapply inv_childrenIds.
    + done.
    + by eapply inv_childrenIds.
  - intros q n' c m' Hq Hc.
    apply A in Hc as [[-> ->]|[(-> & _ & ->)|(? & ? & Hc)]];
    apply A in Hq as [[-> ->]|[(-> & _ & ->)|(? & ? & Hq)]]; try done; simpl.
    + rewrite elem_of_app, list_elem_of_singleton.
      rewrite <- (inv_parent _ _ _ _ I _ _ _ _ Hpnode Hpnode). 
      split; [intros [?|?]; [done|arith]|by left].
    + split; [by intros ?%elem_of_nil|].
      intros Hpar. pose proof (inv_parent_below _ _ _ _ I _ _ _ Hpnode Hpar).
      arith.
    + by apply (inv_parent _ _ _ _ I).
    + rewrite elem_of_app, list_elem_of_singleton. split; [done|by right].
    + split; [by intros ?%elem_of_nil|]. intros [=]. arith.
    + split; [|congruence]. intros Hin.
      pose proof (inv_children _ _ _ _ I _ _ _ Hq Hin). arith.
    + rewrite elem_of_app, list_elem_of_singleton.
      rewrite <- (inv_parent _ _ _ _ I _ _ _ _ Hpnode Hc).
      split; [intros [?|?]; [done|arith]|by left].
    + split; [by intros ?%elem_of_nil|].
      intros Hpar. pose proof (inv_parent_below _ _ _ _ I _ _ _ Hc Hpar).
      apply lookup_lt_Some in Hc. arith.
    + by apply (inv_parent _ _ _ _ I).
  - intros c m' q [[-> ->]|[(-> & _ & ->)|(? & ? & Hc)]]%A; simpl.
    + by apply (inv_parent_below _ _ _ _ I).
    + intros [= <-]. arith.
    + by apply (inv_parent_below _ _ _ _ I).
  - intros n' [[<- ->]|[(Hz & _ & ->)|(? & ? & Hq)]]%A; simpl.
    + by apply (inv_root _ _ _ _ I).
    + pose proof (inv_nonempty _ _ _ _ I). arith.
    + by apply (inv_root _ _ _ _ I).
  - intros q n' [[-> ->]|[(-> & _ & ->)|(? & ? & Hq)]]%A; simpl.
    + by eapply inv_common.
    + split; [done|]. by eapply (inv_common _ _ _ _ I).
    + by eapply inv_common.
  - intros k q [[<- <-]|[Hne Hk]]%lookup_insert_Some.
    + pose proof (inv_nonempty _ _ _ _ I). arith.
    + pose proof (inv_seen_range _ _ _ _ I _ _ Hk). arith.
  - intros k1 k2 q [[<- <-]|[Hne1 Hk1]]%lookup_insert_Some
                   [[<- Heq]|[Hne2 Hk2]]%lookup_insert_Some; try done.
    + pose proof (inv_seen_range _ _ _ _ I _ _ Hk2). arith.
    + pose proof (inv_seen_range _ _ _ _ I _ _ Hk1). arith.
    + by eapply inv_seen_inj.
  - intros q Hq. destruct (decide (q = length (hp st))) as [->|Hne].
    + exists sofar. by rewrite lookup_insert_eq.
    + destruct (inv_seen_surj _ _ _ _ I q) as [k Hk]; [arith|].
      exists k. rewrite lookup_insert_ne; [done|]. intros <-. congruence.
  - intros k. rewrite elem_of_app, list_elem_of_singleton.
    rewrite <- (inv_seen_dom _ _ _ _ I). rewrite lookup_insert_is_Some.
    split.
    + intros [->|[_ ?]]; [by right|by left].
    + intros [?| ->]; [|by left].
      destruct (decide (sofar = k)); [by left|by right].
  - intros k q n' [[<- <-]|[Hne Hk]]%lookup_insert_Some Hq.
    + apply A in Hq as [[Heq ->]|[(_ & _ & ->)|(? & ? & Hq)]]; [arith| |done].
      exists prev, part. simpl. repeat split; try done.
      symmetry. by apply nodeAt_insert.
    + pose proof (inv_seen_range _ _ _ _ I _ _ Hk) as Hr.
      assert (∃ n, hp st !! q = Some n ∧ Name (hFields n') = Name (hFields n)
                   ∧ hParent n' = hParent n) as (n & Hn & -> & ->).
      { apply A in Hq as [[-> ->]|[(Heq & _ & _)|(? & ? & Hq)]].
        - by exists pnode.
        - arith.
        - by exists n'. }
      destruct (inv_key _ _ _ _ I _ _ _ Hk Hn)
        as (prev0 & part0 & ? & ? & ? & ? & Hpar & [x Hx]).
      exists prev0, part0. split_and!; try done.
      rewrite Hx. symmetry. apply nodeAt_insert; [done|]. congruence.
  - intros k q n' [[<- <-]|[Hne Hk]]%lookup_insert_Some Hq.
    + apply A in Hq as [[Heq ->]|[(_ & _ & ->)|(? & ? & Hq)]]; [arith| |done].
      simpl. rewrite occurrences_app, occurrences_singleton_eq.
      by rewrite occurrences_absent.
    + pose proof (inv_seen_range _ _ _ _ I _ _ Hk) as Hr.
      rewrite occurrences_app, occurrences_singleton_ne by done.
      rewrite Nat.add_0_r.
      apply A in Hq as [[-> ->]|[(Heq & _ & _)|(? & ? & Hq)]].
      * simpl. by eapply inv_value.
      * arith.
      * by eapply inv_value.
Qed.

Lemma inv_frame cl total visited st a b :
  inv cl total visited st →
  inv cl total visited (mkBuild (hp st) (cnt st) (seen st) a b).
Proof. intros []. by constructor. Qed.

Lemma split_dot_dotfree s : Forall (λ p, dotfree p = true) (split_dot s).
Proof.
  induction s as [|c s IH]; simpl; [by repeat constructor|].
  destruct (Ascii.eqb c ".") eqn:Hc; [by constructor|].
  destruct (split_dot s) as [|p ps]; simpl.
  - repeat constructor. simpl. by rewrite Hc.
  - apply Forall_cons in IH as [Hp Hps]. constructor; [|done].
    simpl. by rewrite Hc, Hp.
Qed.

Lemma dropLast_subseteq parts : dropLast parts ⊆ parts.
Proof. unfold dropLast. apply sublist_subseteq, sublist_take. Qed.

Lemma pathKeys_app sofar a b :
  pathKeys sofar (a ++ b) = pathKeys sofar a ++ pathKeys (lastKey sofar a) b.
Proof.
  revert sofar. induction a as [|x a IH]; intros sofar; [done|].
  simpl. unfold lastKey. simpl. case_decide; [apply IH|].
  rewrite <- app_comm_cons. f_equal. apply IH.
Qed.

Lemma key_nonempty prev part : prev +:+ "." +:+ part ≠ "".
Proof.
  intros H. apply (f_equal String.length) in H.
  rewrite !string_length_app in H. simpl in H. lia.
Qed.

Lemma nodeAt_key (sn : gmap string nat) prev part :
  nodeAt sn (prev +:+ "." +:+ part) = sn !! (prev +:+ "." +:+ part).
Proof. unfold nodeAt. rewrite decide_True; [done|apply key_nonempty]. Qed.

Lemma nodeAt_range cl total visited st key p :
  inv cl total visited st → nodeAt (seen st) key = Some p →
  is_Some (hp st !! p).
Proof.
  intros I. unfold nodeAt. case_decide.
  - intros Hk. apply lookup_lt_is_Some.
    pose proof (inv_seen_range _ _ _ _ I _ _ Hk). lia.
  - intros [= <-]. apply lookup_lt_is_Some. apply I.
Qed.

(** The inner loop, one part. *)
Lemma visitPart_inv cl total visited st part :
  inv cl total visited st →
  is_Some (nodeAt (seen st) (seenSoFar st)) →
  dotfree part = true →
  Z.of_nat (length (visited ++ pathKeys (seenSoFar st) [part])) + 2
    < uint64_modulus →
  ∃ st', visitPart 0 total st part = Some st' ∧
         inv cl total (visited ++ pathKeys (seenSoFar st) [part]) st' ∧
         seenSoFar st' = lastKey (seenSoFar st) [part] ∧
         is_Some (nodeAt (seen st') (seenSoFar st')).
Proof.
  intros I [parent Hparent] Hdot Hbound. unfold visitPart, lastKey. simpl.
  simpl in Hbound. destruct (decide (part = "")) as [->|Hpart].
  { exists st. rewrite app_nil_r. split_and!; try done; by eexists. }
  rewrite length_app in Hbound. simpl in Hbound.
  destruct (seen st !! (seenSoFar st +:+ "." +:+ part)) as [n|] eqn:Hseen.
  - destruct (nodeAt_range _ _ _ _ (seenSoFar st +:+ "." +:+ part) n I)
      as [node Hnode]; [by rewrite nodeAt_key|].
    rewrite Hnode. simpl. eexists. split; [done|]. split_and!.
    + apply inv_bump; [done..|lia].
    + done.
    + simpl. rewrite nodeAt_key. by eexists.
  - assert ((if decide (seenSoFar st ≠ "") then seen st !! seenSoFar st
             else Some 0%nat) = Some parent) as -> by done.
    simpl.
    destruct (nodeAt_range _ _ _ _ _ _ I Hparent) as [pnode Hpnode].
    rewrite Hpnode. simpl. eexists. split; [done|]. split_and!.
    + apply inv_alloc; [done..|lia].
    + done.
    + simpl. rewrite nodeAt_key, lookup_insert_eq. by eexists.
Qed.

(** The inner loop. *)
Lemma visitMetric_inv cl total visited st metric :
  inv cl total visited st →
  Z.of_nat (length (visited ++ keysOf metric)) + 2 < uint64_modulus →
  ∃ st', visitMetric 0 total st metric = Some st' ∧
         inv cl total (visited ++ keysOf metric) st'.
Proof.
  intros I Hbound. unfold visitMetric, keysOf in *.
  set (parts := dropLast (split_dot metric)) in *.
  destruct (forEach_invariant (visitPart 0 total)
    (λ pre s, inv cl total (visited ++ pathKeys "" pre) s ∧
              seenSoFar s = lastKey "" pre ∧
              is_Some (nodeAt (seen s) (seenSoFar s)))
    parts (mkBuild (hp st) (cnt st) (seen st) "" (seenSoFarPrev st)))
    as (st' & Hrun & Hinv & _).
  - simpl. rewrite app_nil_r. split_and!; [by apply inv_frame|done|by eexists].
  - intros pre x post s Hparts (Is & Hsofar & Hsome).
    assert (dotfree x = true) as Hx.
    { pose proof (split_dot_dotfree metric) as Hall.
      rewrite Forall_forall in Hall. apply Hall.
      apply (dropLast_subseteq (split_dot metric)). fold parts.
      rewrite Hparts. apply elem_of_app. right. left. }
    rewrite pathKeys_app, app_assoc, <- Hsofar.
    destruct (visitPart_inv cl total _ s x Is Hsome Hx)
      as (s' & Hs' & Is' & Hsofar' & Hsome').
    { rewrite Hsofar, <- app_assoc, <- pathKeys_app.
      rewrite Hparts in Hbound.
      replace (pre ++ x :: post) with ((pre ++ [x]) ++ post) in Hbound
        by by rewrite <- app_assoc.
      rewrite (pathKeys_app _ (pre ++ [x])), !length_app in Hbound.
      rewrite !length_app. lia. }
    exists s'. split_and!; try done.
    rewrite Hsofar', Hsofar. unfold lastKey. by rewrite foldl_app.
  - exists st'. done.
Qed.

Lemma wrap64_small x : 0 ≤ x < uint64_modulus → wrap64 x = x.
Proof. intros. unfold wrap64. by rewrite Z.mod_small. Qed.

Lemma inv_init cl metrics :
  Z.of_nat (length metrics) < uint64_modulus →
  inv cl (Z.of_nat (length metrics)) []
    (mkBuild [rootNode cl metrics] (wrap64 (rootElementId + 1)) ∅ "" "").
Proof.
  intros Hlen.
  assert (∀ p n, [rootNode cl metrics] !! p = Some n →
                 p = 0%nat ∧ n = rootNode cl metrics) as R.
  { intros p n [-> ->]%list_lookup_singleton_Some. done. }
  unfold rootNode in *.
  constructor; cbn [hp cnt seen].
  - simpl. lia.
  - done.
  - simpl. lia.
  - by intros p n [-> ->]%R.
  - intros p n c [-> ->]%R. simpl. by intros ?%elem_of_nil.
  - intros p n [-> ->]%R. apply NoDup_nil_2.
  - by intros p n [-> ->]%R.
  - intros p n c m [-> ->]%R [-> ->]%R. simpl.
    split; [by intros ?%elem_of_nil|done].
  - by intros c m p [-> ->]%R.
  - intros n [_ ->]%R. simpl. split_and!; [done| |done].
    apply wrap64_small. lia.
  - intros p n [-> ->]%R. simpl. split; [|done]. apply wrap64_small. lia.
  - intros k p. by rewrite lookup_empty.
  - intros k1 k2 p. by rewrite lookup_empty.
  - intros p ?. simpl in *. lia.
  - intros k. rewrite lookup_empty. split; [by intros [? ?]|by intros ?%elem_of_nil].
  - intros k p n. by rewrite lookup_empty.
  - intros k p n. by rewrite lookup_empty.
Qed.

Lemma allKeys_snoc pre x : allKeys (pre ++ [x]) = allKeys pre ++ keysOf x.
Proof. unfold allKeys. by rewrite bind_app, bind_singleton. Qed.

(** [constructTree] does not panic, and the invariant holds at the end. *)
Lemma buildHeap_inv cl metrics :
  fits metrics →
  ∃ st, buildHeap cl metrics = Some st ∧
        inv cl (Z.of_nat (length metrics)) (allKeys metrics) st.
Proof.
  intros [Hlen Hkeys]. unfold buildHeap, constructTree.
  rewrite (wrap64_small (Z.of_nat (length metrics))) by lia.
  apply (forEach_invariant _
           (λ pre s, inv cl (Z.of_nat (length metrics)) (allKeys pre) s)).
  - by apply inv_init.
  - intros pre x post s Hm Is. rewrite allKeys_snoc.
    apply visitMetric_inv; [done|].
    rewrite <- allKeys_snoc.
    assert (metrics = (pre ++ [x]) ++ post) as Hm'
      by (by rewrite Hm, <- app_assoc).
    rewrite Hm' in Hkeys.
    unfold allKeys in *. rewrite (bind_app _ (pre ++ [x])), length_app in Hkeys.
    lia.
Qed.

Lemma treeOf_unfold fuel h p :
  treeOf (S fuel) h p =
  n ← h !! p; cs ← mapM (treeOf fuel h) (hChildren n);
  Some (Node (hFields n) cs).
Proof. reflexivity. Qed.

Lemma treeOf_Some fuel h p t :
  treeOf (S fuel) h p = Some t →
  ∃ n cs, h !! p = Some n ∧ t = Node (hFields n) cs ∧
          Forall2 (λ c ct, treeOf fuel h c = Some ct) (hChildren n) cs.
Proof.
  rewrite treeOf_unfold. intros H.
  destruct (h !! p) as [n|]; [|done]. simpl in H.
  destruct (mapM (treeOf fuel h) (hChildren n)) as [cs|] eqn:Hcs; [|done].
  simpl in H. injection H as <-. exists n, cs. split_and!; try done.
  by apply mapM_Some.
Qed.

Section heap.
Context {cl : string} {total : Z} {visited : list string} {st : buildState}.
Hypothesis I : inv cl total visited st.

Lemma treeOf_is_Some fuel p :
  (p < length (hp st))%nat → (length (hp st) - p ≤ fuel)%nat →
  is_Some (treeOf fuel (hp st) p).
Proof.
  revert p. induction fuel as [|fuel IH]; intros p Hp Hfuel; [lia|].
  rewrite treeOf_unfold.
  destruct (lookup_lt_is_Some_2 _ _ Hp) as [n Hn]. rewrite Hn. simpl.
  assert (is_Some (mapM (treeOf fuel (hp st)) (hChildren n))) as [cs ->];
    [|by eexists].
  apply mapM_is_Some, Forall_forall. intros c Hc. simpl.
  pose proof (inv_children _ _ _ _ I _ _ _ Hn Hc). apply IH; lia.
Qed.

Lemma anc_trans a b c : anc (hp st) a b → anc (hp st) b c → anc (hp st) a c.
Proof.
  induction 1 as [|q m r p Hq Hr _ IH]; [done|].
  intros Hc. eapply anc_step; [done..|]. by apply IH.
Qed.

Lemma anc_le q p : anc (hp st) q p → (p ≤ q)%nat.
Proof.
  induction 1 as [|q m r p Hq Hr _ IH]; [done|].
  pose proof (inv_parent_below _ _ _ _ I _ _ _ Hq Hr). lia.
Qed.

Lemma anc_linear q a b :
  anc (hp st) q a → anc (hp st) q b → anc (hp st) a b ∨ anc (hp st) b a.
Proof.
  induction 1 as [|q m r p Hq Hr Hrp IH]; intros Hb; [by left|].
  inversion Hb as [|? m' r' ? Hq' Hr' Hrb]; subst.
  - right. by eapply anc_step.
  - assert (r' = r) as -> by congruence. by apply IH.
Qed.

Lemma anc_child p n c :
  hp st !! p = Some n → c ∈ hChildren n → anc (hp st) c p.
Proof.
  intros Hn Hc. pose proof (inv_children _ _ _ _ I _ _ _ Hn Hc) as Hr.
  destruct (lookup_lt_is_Some_2 (hp st) c) as [m Hm]; [lia|].
  eapply anc_step; [done| |apply anc_refl].
  by apply (inv_parent _ _ _ _ I _ _ _ _ Hn Hm).
Qed.

Lemma ptrsOf_anc fuel p q : q ∈ ptrsOf fuel (hp st) p → anc (hp st) q p.
Proof.
  revert p. induction fuel as [|fuel IH]; intros p; simpl.
  { by intros ?%elem_of_nil. }
  intros [->|Hq]%elem_of_cons; [apply anc_refl|].
  apply list_elem_of_bind in Hq as (c & Hq & Hc).
  destruct (hp st !! p) as [n|] eqn:Hn; simpl in Hc;
    [|by apply elem_of_nil in Hc].
  eapply anc_trans; [by apply IH|by eapply anc_child].
Qed.

Lemma siblings_disjoint p n c1 c2 q :
  hp st !! p = Some n → c1 ∈ hChildren n → c2 ∈ hChildren n →
  anc (hp st) q c1 → anc (hp st) q c2 → c1 = c2.
Proof.
  intros Hn Hc1 Hc2 H1 H2.
  assert (∀ a b, a ∈ hChildren n → b ∈ hChildren n →
                 anc (hp st) a b → a = b) as Hup.
  { intros a b Ha Hb Hab.
    inversion Hab as [|? m r ? Hm Hr Hrb]; subst; [done|].
    pose proof (inv_children _ _ _ _ I _ _ _ Hn Hb).
    assert (r = p) as ->.
    { apply (inv_parent _ _ _ _ I _ _ _ _ Hn Hm) in Ha. congruence. }
    apply anc_le in Hrb. lia. }
  destruct (anc_linear q c1 c2 H1 H2); [by apply Hup|].
  symmetry. by apply Hup.
Qed.

Lemma ptrsOf_NoDup fuel p : NoDup (ptrsOf fuel (hp st) p).
Proof.
  revert p. induction fuel as [|fuel IH]; intros p; simpl.
  { apply NoDup_nil_2. }
  destruct (hp st !! p) as [n|] eqn:Hn; simpl;
    [|by apply NoDup_singleton].
  apply NoDup_cons. split.
  - intros (c & Hq & Hc)%list_elem_of_bind.
    apply ptrsOf_anc, anc_le in Hq.
    pose proof (inv_children _ _ _ _ I _ _ _ Hn Hc). lia.
  - apply NoDup_bind; [|by intros|by eapply inv_children_nodup].
    intros c1 c2 q Hc1 Hc2 H1%ptrsOf_anc H2%ptrsOf_anc.
    by eapply siblings_disjoint.
Qed.

Lemma ptrsOf_below fuel p q :
  q ∈ tail (ptrsOf fuel (hp st) p) → (p < q)%nat.
Proof.
  destruct fuel as [|fuel]; simpl; [by intros ?%elem_of_nil|].
  intros (c & Hq & Hc)%list_elem_of_bind.
  destruct (hp st !! p) as [n|] eqn:Hn; simpl in Hc;
    [|by apply elem_of_nil in Hc].
  apply ptrsOf_anc, anc_le in Hq.
  pose proof (inv_children _ _ _ _ I _ _ _ Hn Hc). lia.
Qed.

(** Node by node, the tree read from the heap holds the fields of the
    cells visited. *)
Lemma treeOf_nodes fuel p t :
  treeOf fuel (hp st) p = Some t →
  Forall2 (λ q n, ∃ cell, hp st !! q = Some cell ∧ fields n = hFields cell)
    (ptrsOf fuel (hp st) p) (nodes t).
Proof.
  revert p t. induction fuel as [|fuel IH]; intros p t Ht; [done|].
  apply treeOf_Some in Ht as (n & cs & Hn & -> & Hcs).
  simpl ptrsOf. rewrite Hn, nodes_unfold. simpl.
  constructor; [by exists n|].
  apply Forall2_bind. eapply Forall2_impl; [done|].
  intros c ct Hct. by apply IH.
Qed.

Lemma treeOf_ids fuel p t :
  treeOf fuel (hp st) p = Some t →
  ids t = (λ q, Z.of_nat q + 1) <$> ptrsOf fuel (hp st) p.
Proof.
  intros Ht%treeOf_nodes. unfold ids.
  induction Ht as [|q n qs ns (cell & Hq & Hf) _ IH]; [done|].
  rewrite !fmap_cons, IH, Hf. f_equal. by eapply inv_id.
Qed.

Lemma treeOf_ids_NoDup fuel p t :
  treeOf fuel (hp st) p = Some t → NoDup (ids t).
Proof.
  intros Ht. rewrite (treeOf_ids _ _ _ Ht).
  apply NoDup_fmap_2; [|apply ptrsOf_NoDup]. intros a b ?. lia.
Qed.

Lemma treeOf_parallelHere fuel p t :
  treeOf fuel (hp st) p = Some t → parallelHere t.
Proof.
  destruct fuel as [|fuel]; [done|].
  intros (n & cs & Hn & -> & Hcs)%treeOf_Some. unfold parallelHere. simpl.
  rewrite (inv_childrenIds _ _ _ _ I _ _ Hn).
  induction Hcs as [|c ct l lt Hct _ IH]; [done|].
  rewrite !fmap_cons, IH. f_equal.
  destruct fuel as [|fuel]; [done|].
  apply treeOf_Some in Hct as (cell & ds & Hc & -> & _).
  simpl. symmetry. by eapply inv_id.
Qed.

Lemma treeOf_subtrees fuel p t n :
  treeOf fuel (hp st) p = Some t → n ∈ nodes t →
  ∃ fuel' q, treeOf fuel' (hp st) q = Some n.
Proof.
  revert p t. induction fuel as [|fuel IH]; intros p t Ht Hn; [done|].
  apply treeOf_Some in Ht as Ht'. destruct Ht' as (m & cs & Hm & -> & Hcs).
  rewrite nodes_unfold in Hn. apply elem_of_cons in Hn as [->|Hn].
  { by exists (S fuel), p. }
  apply list_elem_of_bind in Hn as (ct & Hn & Hct).
  apply list_elem_of_lookup in Hct as [i Hi].
  destruct (Forall2_lookup_r _ _ _ _ _ Hcs Hi) as (c & _ & Hc).
  by eapply IH.
Qed.

Lemma treeOf_parallel fuel p t :
  treeOf fuel (hp st) p = Some t → parallel t.
Proof.
  intros Ht. unfold parallel. apply Forall_forall. intros n Hn.
  destruct (treeOf_subtrees _ _ _ _ Ht Hn) as (fuel' & q & Hq).
  by eapply treeOf_parallelHere.
Qed.
End heap.

(** ** The keys of one name are distinct *)

Lemma pathKeys_longer sofar parts k :
  k ∈ pathKeys sofar parts → (String.length sofar < String.length k)%nat.
Proof.
  revert sofar. induction parts as [|part ps IH]; intros sofar; simpl.
  { by intros ?%elem_of_nil. }
  case_decide; [by apply IH|].
  intros [->|Hk%IH]%elem_of_cons;
    rewrite ?string_length_app in *; simpl in *; lia.
Qed.

Lemma pathKeys_NoDup sofar parts : NoDup (pathKeys sofar parts).
Proof.
  revert sofar. induction parts as [|part ps IH]; intros sofar; simpl.
  { apply NoDup_nil_2. }
  case_decide; [by apply IH|].
  apply NoDup_cons_2; [|apply IH].
  intros Hk%pathKeys_longer. lia.
Qed.

Lemma occurrences_NoDup k l : NoDup l → (occurrences k l ≤ 1)%nat.
Proof.
  induction 1 as [|x l Hx _ IH]; [unfold occurrences; simpl; lia|].
  change (x :: l) with ([x] ++ l). rewrite occurrences_app.
  destruct (decide (x = k)) as [->|Hne].
  - rewrite occurrences_singleton_eq, (occurrences_absent k l); [lia|done].
  - rewrite occurrences_singleton_ne by done. lia.
Qed.

Lemma occurrences_allKeys k metrics :
  (occurrences k (allKeys metrics) ≤ length metrics)%nat.
Proof.
  unfold allKeys. induction metrics as [|m ms IH]; [done|].
  rewrite bind_cons, occurrences_app. simpl length.
  pose proof (occurrences_NoDup k (keysOf m) (pathKeys_NoDup _ _)). lia.
Qed.

Lemma occurrences_pos k l : k ∈ l → (1 ≤ occurrences k l)%nat.
Proof.
  intros (l1 & l2 & ->)%list_elem_of_split.
  change (k :: l2) with ([k] ++ l2).
  rewrite !occurrences_app, occurrences_singleton_eq. lia.
Qed.

(** ** The tree [parseTree] builds *)

Lemma buildTree_inv cl metrics :
  fits metrics →
  ∃ st t, buildHeap cl metrics = Some st ∧
          inv cl (Z.of_nat (length metrics)) (allKeys metrics) st ∧
          treeOf (length (hp st)) (hp st) 0 = Some t ∧
          buildTree cl metrics = Some t.
Proof.
  intros Hfits. destruct (buildHeap_inv cl metrics Hfits) as (st & Hst & I).
  destruct (treeOf_is_Some I (length (hp st)) 0) as [t Ht].
  { apply I. }
  { lia. }
  exists st, t. split_and!; try done. unfold buildTree. by rewrite Hst.
Qed.

Section built.
Context {cl : string} {metrics : list string} {st : buildState}.
Hypothesis I : inv cl (Z.of_nat (length metrics)) (allKeys metrics) st.

Lemma cell_value_bounds q cell :
  hp st !! q = Some cell →
  Total (hFields cell) = Z.of_nat (length metrics) ∧
  Value (hFields cell) ≤ Total (hFields cell) ∧
  ((0 < q)%nat → 1 ≤ Value (hFields cell)).
Proof.
  intros Hq. destruct (inv_common _ _ _ _ I _ _ Hq) as [Ht _].
  split; [done|]. rewrite Ht. destruct (decide (q = 0%nat)) as [->|Hne].
  { destruct (inv_root _ _ _ _ I _ Hq) as (_ & -> & _). split; [lia|lia]. }
  destruct (inv_seen_surj _ _ _ _ I q) as [k Hk].
  { apply lookup_lt_Some in Hq. lia. }
  rewrite (inv_value _ _ _ _ I _ _ _ Hk Hq).
  pose proof (occurrences_allKeys k metrics).
  assert (k ∈ allKeys metrics) as Hin%occurrences_pos
    by (apply (inv_seen_dom _ _ _ _ I); by eexists).
  lia.
Qed.

Lemma built_nodes_cells fuel p t n :
  treeOf fuel (hp st) p = Some t → n ∈ nodes t →
  ∃ q cell, hp st !! q = Some cell ∧ fields n = hFields cell.
Proof.
  intros Ht%treeOf_nodes [i Hi]%list_elem_of_lookup.
  destruct (Forall2_lookup_r _ _ _ _ _ Ht Hi) as (q & _ & cell & ? & ?).
  by exists q, cell.
Qed.

Lemma built_descendants_cells fuel p t n :
  treeOf fuel (hp st) p = Some t → n ∈ descendants t →
  ∃ q cell, (p < q)%nat ∧ hp st !! q = Some cell ∧ fields n = hFields cell.
Proof.
  intros Ht%treeOf_nodes [i Hi]%list_elem_of_lookup.
  unfold descendants in Hi.
  assert (Forall2 (λ q n, ∃ cell, hp st !! q = Some cell ∧
                                  fields n = hFields cell)
            (tail (ptrsOf fuel (hp st) p)) (tail (nodes t))) as Htl.
  { destruct Ht; [constructor|done]. }
  destruct (Forall2_lookup_r _ _ _ _ _ Htl Hi) as (q & Hq & cell & ? & ?).
  exists q, cell. split_and!; try done.
  eapply (ptrsOf_below I). by eapply list_elem_of_lookup_2.
Qed.
End built.

Lemma built_root cl metrics st t :
  inv cl (Z.of_nat (length metrics)) (allKeys metrics) st →
  treeOf (length (hp st)) (hp st) 0 = Some t →
  id (fields t) = rootElementId ∧
  Value (fields t) = Z.of_nat (length metrics) ∧
  Total (fields t) = Z.of_nat (length metrics).
Proof.
  intros I Ht. pose proof (inv_nonempty _ _ _ _ I).
  destruct (length (hp st)) as [|fuel]; [lia|].
  apply treeOf_Some in Ht as (cell & cs & Hc & -> & _). simpl.
  rewrite (inv_id _ _ _ _ I _ _ Hc).
  destruct (inv_root _ _ _ _ I _ Hc) as (_ & -> & _).
  destruct (inv_common _ _ _ _ I _ _ Hc) as [-> _]. done.
Qed.

Lemma fits_exampleMetrics : fits exampleMetrics.
Proof. split; reflexivity. Qed.

(** C9. On an input whose counters do not wrap, [constructTree] ends
    without a panic, the root keeps value and total equal to the number of
    names, and every node of the tree has that same total and a value that
    is at most the total. *)
Theorem buildTree_value_le_total (cl : string) (metrics : list string) :
  fits metrics →
  ∃ t, buildTree cl metrics = Some t ∧
       Value (fields t) = Z.of_nat (length metrics) ∧
       Total (fields t) = Z.of_nat (length metrics) ∧
       ∀ n, n ∈ nodes t →
            Total (fields n) = Z.of_nat (length metrics) ∧
            Value (fields n) ≤ Total (fields n).
Proof.
  intros Hfits.
  destruct (buildTree_inv cl metrics Hfits) as (st & t & _ & I & Ht & Hb).
  exists t. destruct (built_root _ _ _ _ I Ht) as (_ & Hv & Htot).
  split_and!; try done. intros n Hn.
  destruct (built_nodes_cells _ _ _ _ Ht Hn) as (q & cell & Hq & ->).
  destruct (cell_value_bounds I _ _ Hq) as (? & ? & _). done.
Qed.

Lemma buildTree_value_le_total_witness :
  fits exampleMetrics ∧
  ∃ t, buildTree "c" exampleMetrics = Some t ∧
       Value (fields t) = Z.of_nat (length exampleMetrics) ∧
       Total (fields t) = Z.of_nat (length exampleMetrics) ∧
       ∀ n, n ∈ nodes t →
            Total (fields n) = Z.of_nat (length exampleMetrics) ∧
            Value (fields n) ≤ Total (fields n).
Proof.
  split; [exact fits_exampleMetrics|].
  exact (buildTree_value_le_total "c" exampleMetrics fits_exampleMetrics).
Defined.

(** What reconstruction needs of a tree, and the built tree has. *)
Lemma buildTree_shape cl metrics :
  fits metrics →
  ∃ t, buildTree cl metrics = Some t ∧
       NoDup (ids t) ∧ parallel t ∧ id (fields t) = rootElementId ∧
       ∀ n, n ∈ descendants t → 0 < Value (fields n).
Proof.
  intros Hfits.
  destruct (buildTree_inv cl metrics Hfits) as (st & t & _ & I & Ht & Hb).
  exists t. split_and!; [done| | | |].
  - by eapply (treeOf_ids_NoDup I).
  - by eapply (treeOf_parallel I).
  - by destruct (built_root _ _ _ _ I Ht).
  - intros n Hn.
    destruct (built_descendants_cells I _ _ _ _ Ht Hn)
      as (q & cell & Hpos & Hq & ->).
    destruct (cell_value_bounds I _ _ Hq) as (_ & _ & Hv). lia.
Qed.

(** C3. Build the tree from the names, flatten it, key the rows by id and
    reconstruct with minimum value [f]: the result is the built tree
    trimmed with floor [f], node for node, with the values and totals the
    nodes had when they were built. *)
Theorem reconstruct_full_snapshot_is_trim (cl : string)
    (metrics : list string) :
  fits metrics →
  ∃ t, buildTree cl metrics = Some t ∧
       ∀ (ts f : Z) (fuel : nat), (height t < fuel)%nat →
         reconstructFrom fuel (convertToClickhouse t ts) f
         = Some (trimNodes t f).
Proof.
  intros Hfits.
  destruct (buildTree_shape cl metrics Hfits)
    as (t & Hb & Hnd & Hpar & Hroot & _).
  exists t. split; [done|]. intros ts f fuel Hfuel.
  by apply reconstructFrom_trimNodes.
Qed.

Lemma reconstruct_full_snapshot_is_trim_witness :
  fits exampleMetrics ∧
  ∃ t, buildTree "c" exampleMetrics = Some t ∧
       ∀ (ts f : Z) (fuel : nat), (height t < fuel)%nat →
         reconstructFrom fuel (convertToClickhouse t ts) f
         = Some (trimNodes t f).
Proof.
  split; [exact fits_exampleMetrics|].
  exact (reconstruct_full_snapshot_is_trim "c" exampleMetrics
           fits_exampleMetrics).
Defined.

(** C4. Build, flatten, key by id, reconstruct with floor zero: the result
    is the built tree itself, every node with its id, its childrenIds and
    its children. *)
Theorem flatten_reconstruct_roundtrip (cl : string) (metrics : list string) :
  fits metrics →
  ∃ t, buildTree cl metrics = Some t ∧
       ∀ (ts : Z) (fuel : nat), (height t < fuel)%nat →
         reconstructFrom fuel (convertToClickhouse t ts) 0 = Some t.
Proof.
  intros Hfits.
  destruct (buildTree_shape cl metrics Hfits)
    as (t & Hb & Hnd & Hpar & Hroot & Hpos).
  exists t. split; [done|]. intros ts fuel Hfuel.
  rewrite reconstructFrom_trimNodes by done.
  by rewrite trimNodes_id.
Qed.

Lemma flatten_reconstruct_roundtrip_witness :
  fits exampleMetrics ∧
  ∃ t, buildTree "c" exampleMetrics = Some t ∧
       ∀ (ts : Z) (fuel : nat), (height t < fuel)%nat →
         reconstructFrom fuel (convertToClickhouse t ts) 0 = Some t.
Proof.
  split; [exact fits_exampleMetrics|].
  exact (flatten_reconstruct_roundtrip "c" exampleMetrics fits_exampleMetrics).
Defined.

(** ** Keys determine their last part *)

Lemma dotfree_no_dot p a b : dotfree p = true → p ≠ a +:+ "." +:+ b.
Proof.
  change (a +:+ "." +:+ b) with (a +:+ String "." b).
  revert p. induction a as [|c a IH]; intros p Hp ->; simpl in Hp.
  - done.
  - apply andb_true_iff in Hp as [_ Hp]. by eapply IH.
Qed.

Lemma key_split_inj a1 p1 a2 p2 :
  a1 +:+ "." +:+ p1 = a2 +:+ "." +:+ p2 →
  dotfree p1 = true → dotfree p2 = true → a1 = a2 ∧ p1 = p2.
Proof.
  revert a2. induction a1 as [|c a1 IH]; intros [|c' a2] Heq H1 H2.
  - change (String "." p1 = String "." p2) in Heq. by injection Heq as ->.
  - change (String "." p1 = String c' (a2 +:+ "." +:+ p2)) in Heq.
    injection Heq as _ Heq. by apply dotfree_no_dot in Heq.
  - change (String c (a1 +:+ "." +:+ p1) = String "." p2) in Heq.
    injection Heq as _ Heq. symmetry in Heq. by apply dotfree_no_dot in Heq.
  - change (String c (a1 +:+ "." +:+ p1) = String c' (a2 +:+ "." +:+ p2))
      in Heq.
    injection Heq as -> Heq. destruct (IH a2 Heq H1 H2) as [-> ->]. done.
Qed.

(** ** Lists *)

Lemma Forall2_exists {A B} (R : A → B → Prop) (l : list A) :
  (∀ x, x ∈ l → ∃ y, R x y) → ∃ k, Forall2 R l k.
Proof.
  induction l as [|x l IH]; intros H; [by exists []|].
  destruct (H x) as [y Hy]; [left|].
  destruct IH as [k Hk]; [intros x' ?; apply H; by right|].
  exists (y :: k). by constructor.
Qed.

Lemma Forall2_Permutation_r {A B} (R : A → B → Prop) l l' k :
  Forall2 R l k → l ≡ₚ l' → ∃ k', Forall2 R l' k' ∧ k ≡ₚ k'.
Proof.
  intros HF Hp. revert k HF.
  induction Hp as [|x l l' _ IH|x y l|l l' l'' _ IH1 _ IH2]; intros k HF.
  - apply Forall2_nil_inv_l in HF as ->. by exists [].
  - apply Forall2_cons_inv_l in HF as (z & k0 & Hz & Hk & ->).
    destruct (IH _ Hk) as (k' & ? & ?). exists (z :: k').
    split; [by constructor|by constructor].
  - apply Forall2_cons_inv_l in HF as (z1 & k0 & Hz1 & Hk & ->).
    apply Forall2_cons_inv_l in Hk as (z2 & k1 & Hz2 & Hk & ->).
    exists (z2 :: z1 :: k1). split; [by repeat constructor|apply perm_swap].
  - destruct (IH1 _ HF) as (k' & HF' & ?).
    destruct (IH2 _ HF') as (k'' & ? & ?). exists k''. split; [done|].
    by etrans.
Qed.

(** ** Keys and children in one heap *)

Section keys.
Context {cl : string} {total : Z} {visited : list string} {st : buildState}.
Hypothesis I : inv cl total visited st.

Lemma seen_cell k p : seen st !! k = Some p → is_Some (hp st !! p).
Proof.
  intros Hk. apply lookup_lt_is_Some.
  pose proof (inv_seen_range _ _ _ _ I _ _ Hk). lia.
Qed.

Lemma seen_key_nonempty k p : seen st !! k = Some p → k ≠ "".
Proof.
  intros Hk. destruct (seen_cell _ _ Hk) as [n Hn].
  destruct (inv_key _ _ _ _ I _ _ _ Hk Hn) as (prev & part & -> & _).
  apply key_nonempty.
Qed.

Lemma nodeAt_seen k p : seen st !! k = Some p → nodeAt (seen st) k = Some p.
Proof.
  intros Hk. unfold nodeAt. rewrite decide_True; [done|].
  by eapply seen_key_nonempty.
Qed.

Lemma nodeAt_inj a b p :
  nodeAt (seen st) a = Some p → nodeAt (seen st) b = Some p → a = b.
Proof.
  unfold nodeAt. intros Ha Hb.
  destruct (decide (a ≠ "")) as [?|?%dec_stable];
    destruct (decide (b ≠ "")) as [?|?%dec_stable].
  - by eapply inv_seen_inj.
  - injection Hb as <-. apply (inv_seen_range _ _ _ _ I) in Ha. lia.
  - injection Ha as <-. apply (inv_seen_range _ _ _ _ I) in Hb. lia.
  - congruence.
Qed.

(** A child of the node of [key] is the node of a key one part longer. *)
Lemma child_key key p n c :
  nodeAt (seen st) key = Some p → hp st !! p = Some n → c ∈ hChildren n →
  ∃ part, seen st !! (key +:+ "." +:+ part) = Some c ∧ dotfree part = true.
Proof.
  intros Hkey Hn Hc.
  pose proof (inv_children _ _ _ _ I _ _ _ Hn Hc) as Hr.
  destruct (inv_seen_surj _ _ _ _ I c) as [k Hk]; [lia|].
  destruct (seen_cell _ _ Hk) as [m Hm].
  destruct (inv_key _ _ _ _ I _ _ _ Hk Hm)
    as (prev & part & -> & _ & Hdot & _ & Hpar & _).
  apply (inv_parent _ _ _ _ I _ _ _ _ Hn Hm) in Hc.
  rewrite Hc in Hpar. symmetry in Hpar.
  rewrite (nodeAt_inj _ _ _ Hkey Hpar). by exists part.
Qed.

(** And the node of a key one part longer is a child. *)
Lemma key_child key p n part c :
  nodeAt (seen st) key = Some p → hp st !! p = Some n →
  seen st !! (key +:+ "." +:+ part) = Some c → dotfree part = true →
  c ∈ hChildren n.
Proof.
  intros Hkey Hn Hk Hdot.
  destruct (seen_cell _ _ Hk) as [m Hm].
  destruct (inv_key _ _ _ _ I _ _ _ Hk Hm)
    as (prev & part' & Heq & _ & Hdot' & _ & Hpar & _).
  apply key_split_inj in Heq as [<- <-]; [|done..].
  apply (inv_parent _ _ _ _ I _ _ _ _ Hn Hm). congruence.
Qed.

Lemma key_name k p n prev part :
  seen st !! k = Some p → hp st !! p = Some n →
  k = prev +:+ "." +:+ part → dotfree part = true →
  Name (hFields n) = part.
Proof.
  intros Hk Hn -> Hdot.
  destruct (inv_key _ _ _ _ I _ _ _ Hk Hn)
    as (prev' & part' & Heq & _ & Hdot' & -> & _).
  by apply key_split_inj in Heq as [_ ->].
Qed.
End keys.

(** ** Two heaps that looked up the same keys *)

Section two_heaps.
Context {cl : string} {total : Z} {V1 V2 : list string}
        {st1 st2 : buildState}.
Hypothesis I1 : inv cl total V1 st1.
Hypothesis I2 : inv cl total V2 st2.
Hypothesis HV : V1 ≡ₚ V2.

Lemma seen_transfer k c1 :
  seen st1 !! k = Some c1 → ∃ c2, seen st2 !! k = Some c2.
Proof.
  intros Hk. apply (inv_seen_dom _ _ _ _ I2). rewrite <- HV.
  apply (inv_seen_dom _ _ _ _ I1). by eexists.
Qed.

Lemma seen_transfer_back k c2 :
  seen st2 !! k = Some c2 → ∃ c1, seen st1 !! k = Some c1.
Proof.
  intros Hk. apply (inv_seen_dom _ _ _ _ I1). rewrite HV.
  apply (inv_seen_dom _ _ _ _ I2). by eexists.
Qed.

Lemma content_at key p1 p2 n1 n2 :
  nodeAt (seen st1) key = Some p1 → nodeAt (seen st2) key = Some p2 →
  hp st1 !! p1 = Some n1 → hp st2 !! p2 = Some n2 →
  sameContent (hFields n1) (hFields n2).
Proof.
  intros H1 H2 Hn1 Hn2.
  destruct (inv_common _ _ _ _ I1 _ _ Hn1) as [Ht1 Hc1].
  destruct (inv_common _ _ _ _ I2 _ _ Hn2) as [Ht2 Hc2].
  unfold sameContent. rewrite Ht1, Ht2, Hc1, Hc2.
  unfold nodeAt in H1, H2.
  destruct (decide (key ≠ "")) as [Hne|_].
  - destruct (inv_key _ _ _ _ I1 _ _ _ H1 Hn1)
      as (prev & part & Hk & _ & Hdot & -> & _).
    rewrite (key_name I2 _ _ _ _ _ H2 Hn2 Hk Hdot).
    rewrite (inv_value _ _ _ _ I1 _ _ _ H1 Hn1).
    rewrite (inv_value _ _ _ _ I2 _ _ _ H2 Hn2).
    split_and!; try done. unfold occurrences. by rewrite HV.
  - injection H1 as <-. injection H2 as <-.
    destruct (inv_root _ _ _ _ I1 _ Hn1) as (_ & -> & ->).
    destruct (inv_root _ _ _ _ I2 _ Hn2) as (_ & -> & ->). done.
Qed.

Lemma children_at key p1 p2 n1 n2 :
  nodeAt (seen st1) key = Some p1 → nodeAt (seen st2) key = Some p2 →
  hp st1 !! p1 = Some n1 → hp st2 !! p2 = Some n2 →
  ∃ l2', Forall2 (sameKey (seen st1) (seen st2)) (hChildren n1) l2' ∧ hChildren n2 ≡ₚ l2'.
Proof.
  intros H1 H2 Hn1 Hn2.
  destruct (Forall2_exists (sameKey (seen st1) (seen st2)) (hChildren n1)) as [l2' Hl2'].
  { intros c1 Hc1.
    destruct (child_key I1 _ _ _ _ H1 Hn1 Hc1) as (part & Hk & _).
    destruct (seen_transfer _ _ Hk) as [c2 Hc2]. exists c2. by eexists. }
  exists l2'. split; [done|]. symmetry. apply NoDup_Permutation.
  - clear H2 Hn2.
    pose proof (inv_children_nodup _ _ _ _ I1 _ _ Hn1) as Hnd.
    induction Hl2' as [|c1 c2 l l' Hc Hl IH]; [apply NoDup_nil_2|].
    apply NoDup_cons in Hnd as [Hnotin Hnd].
    apply NoDup_cons_2; [|by apply IH].
    intros Hin. apply Hnotin.
    apply list_elem_of_lookup in Hin as [i Hi].
    destruct (Forall2_lookup_r _ _ _ _ _ Hl Hi) as (c1' & Hi' & k' & ? & ?).
    destruct Hc as (k & ? & ?).
    assert (k' = k) as -> by (by eapply (inv_seen_inj _ _ _ _ I2)).
    assert (c1' = c1) as -> by congruence.
    by eapply list_elem_of_lookup_2.
  - by eapply inv_children_nodup.
  - intros c2. split.
    + intros [i Hi]%list_elem_of_lookup.
      destruct (Forall2_lookup_r _ _ _ _ _ Hl2' Hi)
        as (c1 & Hi'%list_elem_of_lookup_2 & k & Hk1 & Hk2).
      destruct (child_key I1 _ _ _ _ H1 Hn1 Hi') as (part & Hk & Hdot).
      assert (k = key +:+ "." +:+ part) as ->
        by (by eapply (inv_seen_inj _ _ _ _ I1)).
      by eapply (key_child I2).
    + intros Hc2.
      destruct (child_key I2 _ _ _ _ H2 Hn2 Hc2) as (part & Hk2 & Hdot).
      destruct (seen_transfer_back _ _ Hk2) as [c1 Hk1].
      pose proof (key_child I1 _ _ _ _ _ H1 Hn1 Hk1 Hdot) as Hc1.
      apply list_elem_of_lookup in Hc1 as [i Hi].
      destruct (Forall2_lookup_l _ _ _ _ _ Hl2' Hi)
        as (c2' & Hi' & k & Hk1' & Hk2').
      assert (k = key +:+ "." +:+ part) as ->
        by (by eapply (inv_seen_inj _ _ _ _ I1)).
      assert (c2' = c2) as -> by congruence.
      by eapply list_elem_of_lookup_2.
Qed.

Lemma treeSim_at fuel1 :
  ∀ fuel2 key p1 p2 t1 t2,
    nodeAt (seen st1) key = Some p1 → nodeAt (seen st2) key = Some p2 →
    treeOf fuel1 (hp st1) p1 = Some t1 →
    treeOf fuel2 (hp st2) p2 = Some t2 →
    treeSim t1 t2.
Proof.
  induction fuel1 as [|fuel1 IH]; intros fuel2 key p1 p2 t1 t2 H1 H2 Ht1 Ht2;
    [done|].
  destruct fuel2 as [|fuel2]; [done|].
  apply treeOf_Some in Ht1 as (n1 & cs1 & Hn1 & -> & Hcs1).
  apply treeOf_Some in Ht2 as (n2 & cs2 & Hn2 & -> & Hcs2).
  destruct (children_at _ _ _ _ _ H1 H2 Hn1 Hn2) as (l2' & Hrel & Hperm).
  destruct (Forall2_Permutation_r _ _ _ _ Hcs2 Hperm) as (cs2' & Hcs2' & ?).
  apply (treeSim_node _ _ _ _ cs2'); [by eapply content_at|done|].
  apply Forall2_same_length_lookup_2.
  - apply Forall2_length in Hcs1, Hrel, Hcs2'. congruence.
  - intros i ct1 ct2 Hi1 Hi2.
    destruct (Forall2_lookup_r _ _ _ _ _ Hcs1 Hi1) as (c1 & Hc1 & Hct1).
    destruct (Forall2_lookup_r _ _ _ _ _ Hcs2' Hi2) as (c2 & Hc2 & Hct2).
    destruct (Forall2_lookup_lr _ _ _ _ _ _ Hrel Hc1 Hc2) as (k & Hk1 & Hk2).
    apply (IH fuel2 k c1 c2); [by apply (nodeAt_seen I1)
                              |by apply (nodeAt_seen I2)|done..].
Qed.
End two_heaps.

(** Similar trees agree on the content of the root and on the number of
    its children. *)
Lemma treeSim_root t1 t2 :
  treeSim t1 t2 →
  sameContent (fields t1) (fields t2) ∧
  length (Children t1) = length (Children t2).
Proof.
  intros H. inversion H as [f1 cs1 f2 cs2 cs2' Hc Hp Hf]; subst. simpl.
  split; [done|]. by rewrite (Forall2_length _ _ _ Hf), Hp.
Qed.

Lemma allKeys_Permutation m1 m2 : m1 ≡ₚ m2 → allKeys m1 ≡ₚ allKeys m2.
Proof. intros H. unfold allKeys. by rewrite H. Qed.

Lemma fits_Permutation m1 m2 : m1 ≡ₚ m2 → fits m1 → fits m2.
Proof.
  intros H [? ?]. unfold fits.
  by rewrite <- (allKeys_Permutation _ _ H), <- H.
Qed.

(** C6 as amended. Two inputs that are permutations of each other give the
    same tree up to ids and up to the order of the children of each node:
    the same cluster, name, total and value on corresponding nodes. *)
Theorem buildTree_permutation (cl : string) (m1 m2 : list string) :
  m1 ≡ₚ m2 → fits m1 →
  ∃ t1 t2, buildTree cl m1 = Some t1 ∧ buildTree cl m2 = Some t2 ∧
           treeSim t1 t2.
Proof.
  intros Hperm Hfits1. pose proof (fits_Permutation _ _ Hperm Hfits1) as Hfits2.
  destruct (buildTree_inv cl m1 Hfits1) as (st1 & t1 & _ & I1 & Ht1 & Hb1).
  destruct (buildTree_inv cl m2 Hfits2) as (st2 & t2 & _ & I2 & Ht2 & Hb2).
  exists t1, t2. split_and!; [done..|].
  rewrite <- (Permutation_length Hperm) in I2.
  by eapply (treeSim_at I1 I2 (allKeys_Permutation _ _ Hperm)
               _ _ "" 0%nat 0%nat).
Qed.

Lemma buildTree_permutation_witness :
  metricsAB ≡ₚ metricsBA ∧ fits metricsAB ∧
  ∃ t1 t2, buildTree "c" metricsAB = Some t1 ∧
           buildTree "c" metricsBA = Some t2 ∧ treeSim t1 t2.
Proof.
  assert (metricsAB ≡ₚ metricsBA) as Hp by apply perm_swap.
  assert (fits metricsAB) as Hf by (split; reflexivity).
  split; [exact Hp|]. split; [exact Hf|].
  exact (buildTree_permutation "c" metricsAB metricsBA Hp Hf).
Defined.

(** The order of the input shows in the order of the children: "a.x" then
    "b.x" puts [a] before [b] under the root, the other order puts [b]
    first, and the trees differ even with their ids blanked. *)
Lemma buildTree_order_dependent :
  metricsAB ≡ₚ metricsBA ∧
  forgetIds <$> buildTree "c" metricsAB ≠ forgetIds <$> buildTree "c" metricsBA.
Proof.
  split; [apply perm_swap|]. vm_compute. discriminate.
Qed.

(* ===================================================================== *)
(** * Further properties of the code *)
(* ===================================================================== *)

(** ** More on trimming *)

Lemma nodes_descendants t : nodes t = t :: descendants t.
Proof. by destruct t. Qed.

(** X1. Trimming twice is trimming once with the larger floor; in
    particular trimming is idempotent. *)
Theorem trimNodes_twice (t : flameGraphNode) (a b : Z) :
  trimNodes (trimNodes t a) b = trimNodes t (Z.max a b).
Proof.
  induction t as [f cs IH] using flameGraphNode_ind'.
  rewrite !trimNodes_unfold. f_equal.
  induction cs as [|c cs IHcs]; [done|].
  apply Forall_cons in IH as [Hc IH]. specialize (IHcs IH).
  rewrite !filter_cons.
  destruct (decide (a < Value (fields c))) as [Ha|Ha].
  - rewrite fmap_cons, filter_cons, fields_trimNodes.
    destruct (decide (b < Value (fields c))) as [Hb|Hb].
    + rewrite decide_True by lia. rewrite !fmap_cons. by f_equal.
    + rewrite decide_False by lia. done.
  - rewrite decide_False by lia. done.
Qed.

(** X2. Trimming changes nothing exactly when every node below the root is
    above the floor. *)
Theorem trimNodes_fixpoint (t : flameGraphNode) (limit : Z) :
  trimNodes t limit = t ↔
  ∀ n, n ∈ descendants t → limit < Value (fields n).
Proof.
  split.
  - intros Heq n Hn. apply (trimNodes_survivors_above t limit).
    by rewrite Heq.
  - apply trimNodes_id.
Qed.

(** ** More on flattening *)

Lemma bind_Permutation_pointwise {A B} (f g : A → list B) (l : list A) :
  Forall (λ x, f x ≡ₚ g x) l → l ≫= f ≡ₚ l ≫= g.
Proof.
  induction 1 as [|x l Hx _ IH]; [done|].
  rewrite !bind_cons. by rewrite Hx, IH.
Qed.

(** X3. The rows of a tree: the row of the root once, and the row of every
    node below it twice. *)
Theorem convertToClickhouse_multiplicity (t : flameGraphNode) (ts : Z) :
  convertToClickhouse t ts ≡ₚ
  rowOf (fields t) ts ::
    (descendants t ≫= λ n, [rowOf (fields n) ts; rowOf (fields n) ts]).
Proof.
  induction t as [f cs IH] using flameGraphNode_ind'.
  rewrite convertToClickhouse_unfold, descendants_unfold. simpl.
  apply Permutation_skip.
  rewrite (list_bind_ext nodes (λ c, c :: descendants c) cs cs);
    [|intros c; apply nodes_descendants|done].
  induction cs as [|c cs IHcs]; [done|].
  apply Forall_cons in IH as [Hc IH]. specialize (IHcs IH).
  rewrite !bind_cons. rewrite bind_app. simpl.
  rewrite Hc, IHcs. done.
Qed.

Lemma keyById_absent rows i :
  Forall (λ r, chId r ≠ i) rows → keyById rows !! i = None.
Proof.
  intros H. unfold keyById. by rewrite keyById_foldl_absent.
Qed.

(** X4. Keyed by id, the doubled rows collapse: for a tree with unique ids
    the map has one entry per node, the row of that node. *)
Theorem keyById_convertToClickhouse (t : flameGraphNode) (ts : Z) :
  NoDup (ids t) →
  size (keyById (convertToClickhouse t ts)) = length (nodes t) ∧
  ∀ i r, keyById (convertToClickhouse t ts) !! i = Some r ↔
         ∃ n, n ∈ nodes t ∧ i = id (fields n) ∧ r = rowOf (fields n) ts.
Proof.
  intros Hnd.
  set (l := (λ n, (id (fields n), rowOf (fields n) ts)) <$> nodes t).
  assert (l.*1 = ids t) as Hfst.
  { unfold l, ids. rewrite <- list_fmap_compose. done. }
  assert (keyById (convertToClickhouse t ts) = list_to_map l) as ->.
  { apply map_eq. intros i.
    destruct (decide (i ∈ ids t)) as [Hi|Hi].
    - apply list_elem_of_fmap in Hi as (n & -> & Hn).
      transitivity (Some (rowOf (fields n) ts)).
      + change (id (fields n)) with (chId (rowOf (fields n) ts)).
        apply keyById_foldl_lookup.
        * apply convertToClickhouse_rows. by exists n.
        * intros r' (m & Hm & ->)%convertToClickhouse_rows Hid.
          simpl in Hid.
          by rewrite (NoDup_fmap_eq (λ n, id (fields n)) (nodes t) m n).
      + symmetry. apply elem_of_list_to_map; [by rewrite Hfst|].
        apply list_elem_of_fmap. by exists n.
    - transitivity (@None clickhouseField).
      + apply keyById_absent, Forall_forall.
        intros r (n & Hn & ->)%convertToClickhouse_rows Hid. apply Hi.
        rewrite <- Hid. by apply elem_of_ids.
      + symmetry. apply not_elem_of_list_to_map. by rewrite Hfst. }
  split.
  - rewrite map_size_list_to_map by (by rewrite Hfst).
    unfold l. by rewrite length_fmap.
  - intros i r. rewrite <- elem_of_list_to_map by (by rewrite Hfst).
    unfold l. rewrite list_elem_of_fmap. split.
    + intros (n & [= -> ->] & Hn). by exists n.
    + intros (n & Hn & -> & ->). by exists n.
Qed.

Lemma keyById_convertToClickhouse_witness :
  NoDup (ids exampleChain) ∧
  size (keyById (convertToClickhouse exampleChain 0))
  = length (nodes exampleChain).
Proof.
  split; [exact exampleChain_ids_NoDup|].
  exact (proj1 (keyById_convertToClickhouse exampleChain 0
                  exampleChain_ids_NoDup)).
Defined.

Lemma keyById_last rows i :
  keyById rows !! i = last (filter (λ r, chId r = i) rows).
Proof.
  induction rows as [|r rows IH] using rev_ind; [done|].
  unfold keyById in *. rewrite foldl_snoc, filter_app, filter_cons.
  rewrite filter_nil.
  destruct (decide (chId r = i)) as [<-|Hne].
  - by rewrite lookup_insert_eq, last_snoc.
  - by rewrite lookup_insert_ne, app_nil_r.
Qed.

Lemma scanData_inv rows (acc data : gmap Z clickhouseField) :
  scanData rows acc = Some data →
  ∃ rs, rows = Some <$> rs ∧
        data = foldl (λ data r, <[chId r := r]> data) acc rs.
Proof.
  revert acc. induction rows as [|[r|] rows IH]; intros acc H; simpl in H.
  - injection H as <-. by exists [].
  - destruct (IH _ H) as (rs & -> & ->). by exists (r :: rs).
  - done.
Qed.

(** X5. The loop that collects the rows of the second query ends with a
    map only if every row scanned; the map then holds, for each id, the
    last row that came with that id. *)
Theorem scanData_last (rows : list (option clickhouseField))
    (data : gmap Z clickhouseField) :
  scanData rows ∅ = Some data →
  ∃ rs, rows = Some <$> rs ∧
        ∀ i, data !! i = last (filter (λ r, chId r = i) rs).
Proof.
  intros (rs & -> & ->)%scanData_inv. exists rs. split; [done|].
  intros i. apply keyById_last.
Qed.

Lemma scanData_last_witness :
  scanData [Some (rowOf (fields exampleChain) 0);
            Some (rowOf (fields exampleChain) 7)] ∅
  = Some {[ 1 := rowOf (fields exampleChain) 7 ]} ∧
  ∃ rs, [Some (rowOf (fields exampleChain) 0);
         Some (rowOf (fields exampleChain) 7)] = Some <$> rs ∧
        ∀ i, ({[ 1 := rowOf (fields exampleChain) 7 ]}
                : gmap Z clickhouseField) !! i
             = last (filter (λ r, chId r = i) rs).
Proof.
  assert (scanData [Some (rowOf (fields exampleChain) 0);
                    Some (rowOf (fields exampleChain) 7)] ∅
          = Some {[ 1 := rowOf (fields exampleChain) 7 ]}) as H.
  { reflexivity. }
  split; [exact H|]. exact (scanData_last _ _ H).
Defined.

(** ** More on reconstruction, for any rows *)

(** X6. Whatever the rows are, reconstruction keeps the fields and the
    children the root came with, appends to them, and every node it adds,
    at any depth, has a value above the minimum. *)
Theorem reconstructTree_above (fuel : nat) (data : gmap Z clickhouseField)
    (root t : flameGraphNode) (minValue : Z) :
  reconstructTree fuel data root minValue = Some t →
  fields t = fields root ∧
  ∃ new, Children t = Children root ++ new ∧
         ∀ n, n ∈ new ≫= nodes → minValue < Value (fields n).
Proof.
  revert root t. induction fuel as [|fuel IH]; intros [f cs] t Ht; [done|].
  rewrite reconstructTree_unfold in Ht.
  destruct (mapM _ _) as [new|] eqn:Hnew; [|done].
  injection Ht as <-. split; [done|]. exists new. split; [done|].
  apply mapM_Some in Hnew.
  intros n (c & Hn & Hc)%list_elem_of_bind.
  apply list_elem_of_lookup in Hc as [k Hk].
  destruct (Forall2_lookup_r _ _ _ _ _ Hnew Hk) as (i & Hi & Hrec).
  apply list_elem_of_lookup_2, list_elem_of_filter in Hi as [Hi _].
  destruct (IH _ _ Hrec) as (Hf & new' & Hcs & Hnew').
  destruct c as [g ds]. simpl in Hf, Hcs. subst.
  rewrite nodes_unfold in Hn. apply elem_of_cons in Hn as [->|Hn].
  - done.
  - by apply Hnew'.
Qed.

Lemma reconstructTree_above_witness :
  reconstructTree 5 (keyById (convertToClickhouse exampleChain 0))
    (Node (fields exampleChain) []) 0 = Some exampleChain ∧
  fields exampleChain = fields (Node (fields exampleChain) []) ∧
  ∃ new, Children exampleChain = [] ++ new ∧
         ∀ n, n ∈ new ≫= nodes → 0 < Value (fields n).
Proof.
  assert (reconstructTree 5 (keyById (convertToClickhouse exampleChain 0))
            (Node (fields exampleChain) []) 0 = Some exampleChain) as H
    by (vm_compute; reflexivity).
  split; [exact H|].
  exact (reconstructTree_above 5 _ _ _ 0 H).
Defined.

Lemma lookupRow_filter (data : gmap Z clickhouseField) minValue i :
  lookupRow (filter (λ kv, minValue < chValue kv.2) data) i =
  if decide (minValue < chValue (lookupRow data i))
  then lookupRow data i else zeroRow.
Proof.
  unfold lookupRow. rewrite map_lookup_filter.
  destruct (data !! i) as [r|]; simpl.
  - destruct (decide (minValue < chValue r)) as [H|H].
    + by rewrite option_guard_True.
    + by rewrite option_guard_False.
  - by case_decide.
Qed.

(** X7. The query keeps only the rows whose value is above the minimum.
    Reconstruction does not see the difference: on the rows that remain it
    gives what it gives on all the rows. *)
Theorem reconstructTree_filtered (fuel : nat) (data : gmap Z clickhouseField)
    (root : flameGraphNode) (minValue : Z) :
  0 ≤ minValue →
  reconstructTree fuel (filter (λ kv, minValue < chValue kv.2) data)
    root minValue
  = reconstructTree fuel data root minValue.
Proof.
  intros Hmin. revert root. induction fuel as [|fuel IH]; intros [f cs];
    [done|].
  simpl. f_equal. induction (childrenIds f) as [|i l IHl]; [done|].
  rewrite lookupRow_filter.
  destruct (decide (minValue < chValue (lookupRow data i))) as [Hi|Hi].
  - destruct (Z.ltb_spec minValue (chValue (lookupRow data i))); [|lia].
    by rewrite IH, IHl.
  - destruct (Z.ltb_spec minValue (chValue (lookupRow data i))); [lia|].
    destruct (Z.ltb_spec minValue (chValue zeroRow)); [simpl in *; lia|].
    done.
Qed.

Lemma reconstructTree_filtered_witness :
  0 ≤ 5 ∧
  reconstructTree 5
    (filter (λ kv, 5 < chValue kv.2)
       (keyById (convertToClickhouse exampleChain 0)))
    (Node (fields exampleChain) []) 5
  = reconstructTree 5 (keyById (convertToClickhouse exampleChain 0))
      (Node (fields exampleChain) []) 5.
Proof.
  assert (0 ≤ 5) as H by lia.
  split; [exact H|]. exact (reconstructTree_filtered 5 _ _ 5 H).
Defined.

Lemma reconstructTree_self_loop fuel (data : gmap Z clickhouseField) i cs
    minValue :
  minValue < chValue (lookupRow data i) →
  i ∈ chChildrenIds (lookupRow data i) →
  reconstructTree fuel data (Node (nodeOfRow (lookupRow data i)) cs) minValue
  = None.
Proof.
  intros Hv Hi. revert cs. induction fuel as [|fuel IH]; intros cs; [done|].
  rewrite reconstructTree_unfold. simpl.
  assert (mapM (λ j, reconstructTree fuel data
                       (Node (nodeOfRow (lookupRow data j)) []) minValue)
            (filter (λ j, minValue < chValue (lookupRow data j))
               (chChildrenIds (lookupRow data i))) = None) as ->; [|done].
  apply mapM_None, Exists_exists. exists i. split; [|apply IH].
  by apply list_elem_of_filter.
Qed.

Lemma reconstructTree_through_loop (data : gmap Z clickhouseField)
    (root : flameGraphNode) (i minValue : Z) :
  i ∈ childrenIds (fields root) →
  minValue < chValue (lookupRow data i) →
  i ∈ chChildrenIds (lookupRow data i) →
  ∀ fuel, reconstructTree fuel data root minValue = None.
Proof.
  intros Hroot Hv Hi [|fuel]; [done|]. destruct root as [f cs].
  rewrite reconstructTree_unfold.
  assert (mapM (λ j, reconstructTree fuel data
                       (Node (nodeOfRow (lookupRow data j)) []) minValue)
            (filter (λ j, minValue < chValue (lookupRow data j))
               (childrenIds f)) = None) as ->; [|done].
  apply mapM_None, Exists_exists. exists i.
  split; [by apply list_elem_of_filter|].
  by apply reconstructTree_self_loop.
Qed.

(** X8. A stored row that lists its own id among its children, and passes
    the minimum, sends the reconstruction of any root that reaches it into
    a recursion that no depth ends. *)
Theorem reconstructTree_cycle (data : gmap Z clickhouseField)
    (root : flameGraphNode) (i minValue : Z) :
  i ∈ childrenIds (fields root) →
  minValue < chValue (lookupRow data i) →
  i ∈ chChildrenIds (lookupRow data i) →
  ∀ fuel, reconstructTree fuel data root minValue = None.
Proof.
  apply reconstructTree_through_loop.
Qed.

(** ** Every cell of the heap is in the tree *)

Section reach.
Context {cl : string} {total : Z} {visited : list string} {st : buildState}.
Hypothesis I : inv cl total visited st.

Lemma cell_parent q m :
  hp st !! q = Some m → (0 < q)%nat → is_Some (hParent m).
Proof.
  intros Hm Hq. destruct (inv_seen_surj _ _ _ _ I q) as [k Hk].
  { apply lookup_lt_Some in Hm. lia. }
  by destruct (inv_key _ _ _ _ I _ _ _ Hk Hm) as (? & ? & _ & _ & _ & _ & _ & ?).
Qed.

Lemma anc_root q : (q < length (hp st))%nat → anc (hp st) q 0.
Proof.
  induction q as [q IH] using lt_wf_ind. intros Hq.
  destruct (decide (q = 0%nat)) as [->|Hne]; [apply anc_refl|].
  destruct (lookup_lt_is_Some_2 _ _ Hq) as [m Hm].
  destruct (cell_parent q m Hm) as [r Hr]; [lia|].
  pose proof (inv_parent_below _ _ _ _ I _ _ _ Hm Hr).
  eapply anc_step; [done..|]. apply IH; lia.
Qed.

Lemma anc_first_child q p :
  anc (hp st) q p → q ≠ p →
  ∃ c m, anc (hp st) q c ∧ hp st !! c = Some m ∧ hParent m = Some p.
Proof.
  induction 1 as [|q m r p Hq Hr Hrp IH]; [done|]. intros _.
  destruct (decide (r = p)) as [->|Hne].
  - exists q, m. split_and!; [apply anc_refl|done..].
  - destruct (IH Hne) as (c & mc & Hc & ? & ?). exists c, mc.
    split_and!; [|done..]. by eapply anc_step.
Qed.

Lemma ptrsOf_reach fuel p q :
  anc (hp st) q p → (q - p < fuel)%nat → q ∈ ptrsOf fuel (hp st) p.
Proof.
  revert p. induction fuel as [|fuel IH]; intros p Hanc Hfuel; [lia|].
  simpl. destruct (decide (q = p)) as [->|Hne]; [left|]. right.
  destruct (anc_first_child q p Hanc Hne) as (c & m & Hqc & Hm & Hpar).
  pose proof (inv_parent_below _ _ _ _ I _ _ _ Hm Hpar) as Hpc.
  pose proof (anc_le I _ _ Hqc) as Hcq.
  destruct (lookup_lt_is_Some_2 (hp st) p) as [n Hn].
  { apply lookup_lt_Some in Hm. lia. }
  rewrite Hn. simpl. apply list_elem_of_bind. exists c. split.
  - apply IH; [done|lia].
  - by apply (inv_parent _ _ _ _ I _ _ _ _ Hn Hm).
Qed.

Lemma ptrsOf_range fuel p q :
  (p < length (hp st))%nat → q ∈ ptrsOf fuel (hp st) p →
  (q < length (hp st))%nat.
Proof.
  revert p. induction fuel as [|fuel IH]; intros p Hp; simpl.
  { by intros ?%elem_of_nil. }
  intros [->|(c & Hq & Hc)%list_elem_of_bind]%elem_of_cons; [done|].
  destruct (hp st !! p) as [n|] eqn:Hn; simpl in Hc;
    [|by apply elem_of_nil in Hc].
  pose proof (inv_children _ _ _ _ I _ _ _ Hn Hc). eapply IH; [|done]. lia.
Qed.

Lemma ptrsOf_all :
  ptrsOf (length (hp st)) (hp st) 0 ≡ₚ seq 0 (length (hp st)).
Proof.
  pose proof (inv_nonempty _ _ _ _ I).
  apply NoDup_Permutation; [apply (ptrsOf_NoDup I)|apply NoDup_seq|].
  intros q. rewrite elem_of_seq. split.
  - intros Hq%ptrsOf_range; lia.
  - intros [_ Hq]. apply ptrsOf_reach; [apply anc_root|]; lia.
Qed.

Lemma seen_size : S (size (seen st)) = length (hp st).
Proof.
  pose proof (inv_nonempty _ _ _ _ I).
  assert ((map_to_list (seen st)).*2 ≡ₚ seq 1 (length (hp st) - 1)) as Hp.
  { apply NoDup_Permutation; [|apply NoDup_seq|].
    - apply NoDup_fmap_2_strong; [|apply NoDup_map_to_list].
      intros [k1 p1] [k2 p2] H1%elem_of_map_to_list H2%elem_of_map_to_list.
      simpl. intros ->. f_equal. by eapply inv_seen_inj.
    - intros p. rewrite elem_of_seq, list_elem_of_fmap. split.
      + intros ([k p'] & -> & Hk%elem_of_map_to_list). simpl.
        pose proof (inv_seen_range _ _ _ _ I _ _ Hk). lia.
      + intros Hp. destruct (inv_seen_surj _ _ _ _ I p) as [k Hk]; [lia|].
        exists (k, p). split; [done|]. by apply elem_of_map_to_list. }
  apply Permutation_length in Hp.
  rewrite length_fmap, length_seq in Hp.
  rewrite <- (length_map_to_list (seen st)). lia.
Qed.

Lemma seen_dom : dom (seen st) = list_to_set visited.
Proof.
  apply set_eq. intros k.
  rewrite elem_of_dom, elem_of_list_to_set. apply I.
Qed.

Lemma ptr_key q :
  (q < length (hp st))%nat → ∃ key, nodeAt (seen st) key = Some q.
Proof.
  intros Hq. destruct (decide (q = 0%nat)) as [->|Hne]; [by exists ""|].
  destruct (inv_seen_surj _ _ _ _ I q) as [k Hk]; [lia|].
  exists k. by apply (nodeAt_seen I).
Qed.
End reach.

(** X9. The tree [constructTree] leaves is well formed: the root has id 1
    and name "all", ids are unique, every childrenIds lists the ids of the
    children in order, every node carries the cluster of the root, and
    every node below the root has a value of at least 1. *)
Theorem buildTree_well_formed (cl : string) (metrics : list string) :
  fits metrics →
  ∃ t, buildTree cl metrics = Some t ∧
       id (fields t) = rootElementId ∧ Name (fields t) = "all" ∧
       NoDup (ids t) ∧ parallel t ∧
       (∀ n, n ∈ nodes t → cluster (fields n) = cl) ∧
       (∀ n, n ∈ descendants t → 1 ≤ Value (fields n)).
Proof.
  intros Hfits.
  destruct (buildTree_inv cl metrics Hfits) as (st & t & _ & I & Ht & Hb).
  exists t. split_and!; [done| | | | | |].
  - by destruct (built_root _ _ _ _ I Ht).
  - pose proof (inv_nonempty _ _ _ _ I).
    destruct (length (hp st)) as [|fuel]; [lia|].
    apply treeOf_Some in Ht as (cell & cs & Hc & -> & _). simpl.
    by destruct (inv_root _ _ _ _ I _ Hc) as (_ & _ & ?).
  - by eapply (treeOf_ids_NoDup I).
  - by eapply (treeOf_parallel I).
  - intros n Hn.
    destruct (built_nodes_cells _ _ _ _ Ht Hn) as (q & cell & Hq & ->).
    by destruct (inv_common _ _ _ _ I _ _ Hq).
  - intros n Hn.
    destruct (built_descendants_cells I _ _ _ _ Ht Hn)
      as (q & cell & Hpos & Hq & ->).
    destruct (cell_value_bounds I _ _ Hq) as (_ & _ & Hv). by apply Hv.
Qed.

Lemma buildTree_well_formed_witness :
  fits exampleMetrics ∧
  ∃ t, buildTree "c" exampleMetrics = Some t ∧
       id (fields t) = rootElementId ∧ Name (fields t) = "all" ∧
       NoDup (ids t) ∧ parallel t ∧
       (∀ n, n ∈ nodes t → cluster (fields n) = "c") ∧
       (∀ n, n ∈ descendants t → 1 ≤ Value (fields n)).
Proof.
  split; [exact fits_exampleMetrics|].
  exact (buildTree_well_formed "c" exampleMetrics fits_exampleMetrics).
Defined.

(** X10. The tree has the root and one node for each distinct key the loop
    looked up, and its ids are 1, 2, ... up to the number of nodes. *)
Theorem buildTree_node_count (cl : string) (metrics : list string) :
  fits metrics →
  ∃ t, buildTree cl metrics = Some t ∧
       length (nodes t)
       = S (size (list_to_set (allKeys metrics) : gset string)) ∧
       ids t ≡ₚ (λ q, Z.of_nat q + 1) <$> seq 0 (length (nodes t)).
Proof.
  intros Hfits.
  destruct (buildTree_inv cl metrics Hfits) as (st & t & _ & I & Ht & Hb).
  exists t. split; [done|].
  assert (length (nodes t) = length (hp st)) as Hlen.
  { rewrite <- (Forall2_length _ _ _ (treeOf_nodes _ _ _ Ht)).
    by rewrite (ptrsOf_all I), length_seq. }
  split.
  - rewrite Hlen, <- (seen_size I), <- (seen_dom I). by rewrite size_dom.
  - rewrite (treeOf_ids I _ _ _ Ht), Hlen. by rewrite (ptrsOf_all I).
Qed.

Lemma buildTree_node_count_witness :
  fits exampleMetrics ∧
  ∃ t, buildTree "c" exampleMetrics = Some t ∧
       length (nodes t)
       = S (size (list_to_set (allKeys exampleMetrics) : gset string)) ∧
       ids t ≡ₚ (λ q, Z.of_nat q + 1) <$> seq 0 (length (nodes t)).
Proof.
  split; [exact fits_exampleMetrics|].
  exact (buildTree_node_count "c" exampleMetrics fits_exampleMetrics).
Defined.

(** ** Counting lookups *)

Lemma occurrences_cons k x l :
  occurrences k (x :: l)
  = ((if decide (x = k) then 1 else 0) + occurrences k l)%nat.
Proof. unfold occurrences. rewrite filter_cons. by case_decide. Qed.

Lemma occurrences_keysOf k m :
  occurrences k (keysOf m) = if decide (k ∈ keysOf m) then 1%nat else 0%nat.
Proof.
  case_decide as Hk.
  - pose proof (occurrences_pos _ _ Hk).
    pose proof (occurrences_NoDup k _ (pathKeys_NoDup "" (dropLast (split_dot m)))).
    unfold keysOf in *. lia.
  - by apply occurrences_absent.
Qed.

Lemma occurrences_namesWith k metrics :
  occurrences k (allKeys metrics) = length (namesWith k metrics).
Proof.
  unfold allKeys, namesWith. induction metrics as [|m ms IH]; [done|].
  rewrite bind_cons, occurrences_app, IH, occurrences_keysOf, filter_cons.
  by case_decide.
Qed.

Lemma pathKeys_nonempty sofar parts : "" ∉ pathKeys sofar parts.
Proof. intros H%pathKeys_longer. simpl in H. lia. Qed.

Lemma sum_occurrences (K V : list string) :
  NoDup K →
  sum_list ((λ k, occurrences k V) <$> K) = length (filter (λ x, x ∈ K) V).
Proof.
  intros HK. induction V as [|x V IH].
  { clear HK. induction K as [|k K IHK]; [done|].
    rewrite fmap_cons. cbn in *. exact IHK. }
  rewrite filter_cons.
  assert (sum_list ((λ k, occurrences k (x :: V)) <$> K)
          = ((if decide (x ∈ K) then 1 else 0)
             + sum_list ((λ k, occurrences k V) <$> K))%nat) as ->.
  { clear IH. induction HK as [|k K Hk HK IHK]; [done|].
    rewrite !fmap_cons. simpl. rewrite IHK, occurrences_cons.
    destruct (decide (x = k)) as [->|Hne].
    - rewrite (decide_True (P := k ∈ k :: K)) by left.
      rewrite (decide_False (P := k ∈ K)) by done. lia.
    - destruct (decide (x ∈ K)) as [Hx|Hx].
      + rewrite (decide_True (P := x ∈ k :: K)) by (by right). lia.
      + rewrite (decide_False (P := x ∈ k :: K)); [lia|].
        by intros [?|?]%elem_of_cons. }
  rewrite IH. by case_decide.
Qed.

Section child_keys.
Variables (key : string) (K : list string).
Hypothesis HK :
  ∀ k, k ∈ K → ∃ part, k = key +:+ "." +:+ part ∧ dotfree part = true.

Lemma child_keys_walk sofar parts :
  Forall (λ p, dotfree p = true) parts →
  (length (filter (λ x, x ∈ K) (pathKeys sofar parts))
   ≤ (if decide (sofar = key) then 1 else 0)
     + occurrences key (pathKeys sofar parts))%nat.
Proof.
  intros Hparts. revert sofar.
  induction Hparts as [|part ps Hpart _ IH]; intros sofar; simpl; [lia|].
  case_decide; [apply IH|].
  rewrite filter_cons, occurrences_cons.
  specialize (IH (sofar +:+ "." +:+ part)).
  destruct (decide (sofar +:+ "." +:+ part ∈ K)) as [Hin|Hin]; simpl; [|lia].
  destruct (HK _ Hin) as (part' & Heq & Hdot).
  apply key_split_inj in Heq as [-> ->]; [|done..].
  rewrite decide_True by done. lia.
Qed.

Lemma child_keys_all metrics :
  (length (filter (λ x, x ∈ K) (allKeys metrics))
   ≤ (if decide (key = "") then length metrics else 0)
     + occurrences key (allKeys metrics))%nat.
Proof.
  unfold allKeys. induction metrics as [|m ms IH]; [simpl; lia|].
  rewrite bind_cons, filter_app, length_app, occurrences_app.
  pose proof (child_keys_walk "" (dropLast (split_dot m))) as Hm.
  fold (keysOf m) in Hm.
  assert (Forall (λ p, dotfree p = true) (dropLast (split_dot m))) as Hd.
  { apply Forall_forall. intros p Hp%dropLast_subseteq.
    pose proof (split_dot_dotfree m) as Hall.
    rewrite Forall_forall in Hall. by apply Hall. }
  specialize (Hm Hd). simpl length.
  destruct (decide (key = "")) as [->|Hne].
  - rewrite decide_True in Hm by done. lia.
  - rewrite decide_False in Hm by done. lia.
Qed.
End child_keys.

(** ** Children of a node of the built tree *)

Section children.
Context {cl : string} {metrics : list string} {st : buildState}.
Hypothesis I : inv cl (Z.of_nat (length metrics)) (allKeys metrics) st.

(** The keys of the children of a cell. *)
Lemma children_keys key q m :
  nodeAt (seen st) key = Some q → hp st !! q = Some m →
  ∃ K, Forall2 (λ c k, seen st !! k = Some c ∧
                       ∃ part, k = key +:+ "." +:+ part ∧
                               dotfree part = true)
         (hChildren m) K ∧ NoDup K.
Proof.
  intros Hkey Hm.
  destruct (Forall2_exists
              (λ c k, seen st !! k = Some c ∧
                      ∃ part, k = key +:+ "." +:+ part ∧ dotfree part = true)
              (hChildren m)) as [K HK].
  { intros c Hc. destruct (child_key I _ _ _ _ Hkey Hm Hc) as (part & ? & ?).
    exists (key +:+ "." +:+ part). split; [done|]. by exists part. }
  exists K. split; [done|].
  pose proof (inv_children_nodup _ _ _ _ I _ _ Hm) as Hnd.
  induction HK as [|c k l K' [Hk _] HK' IH]; [apply NoDup_nil_2|].
  apply NoDup_cons in Hnd as [Hc Hnd].
  apply NoDup_cons_2; [|by apply IH].
  intros [i Hi]%list_elem_of_lookup.
  destruct (Forall2_lookup_r _ _ _ _ _ HK' Hi) as (c' & Hc' & Hk' & _).
  assert (c' = c) as -> by congruence.
  apply Hc. by eapply list_elem_of_lookup_2.
Qed.

Lemma node_cell fuel q n :
  treeOf fuel (hp st) q = Some n →
  ∃ fuel' m, fuel = S fuel' ∧ hp st !! q = Some m ∧ fields n = hFields m ∧
             Forall2 (λ c ct, treeOf fuel' (hp st) c = Some ct)
               (hChildren m) (Children n).
Proof.
  destruct fuel as [|fuel']; [done|].
  intros (m & cs & Hm & -> & Hcs)%treeOf_Some. by exists fuel', m.
Qed.

Lemma child_value fuel c ct k :
  treeOf fuel (hp st) c = Some ct → seen st !! k = Some c →
  Value (fields ct) = Z.of_nat (occurrences k (allKeys metrics)).
Proof.
  intros (fuel' & m & _ & Hm & -> & _)%node_cell Hk.
  by eapply inv_value.
Qed.

Lemma children_sum fuel q n key :
  treeOf fuel (hp st) q = Some n → nodeAt (seen st) key = Some q →
  sumValues (Children n) ≤ Value (fields n).
Proof.
  intros (fuel' & m & _ & Hm & Hf & Hcs)%node_cell Hkey.
  destruct (children_keys key q m Hkey Hm) as (K & HK & HndK).
  assert (sumValues (Children n)
          = Z.of_nat (sum_list ((λ k, occurrences k (allKeys metrics)) <$> K)))
    as ->.
  { clear HndK. revert K HK.
    induction Hcs as [|c ct l cs Hct _ IH]; intros K HK.
    - by apply Forall2_nil_inv_l in HK as ->.
    - apply Forall2_cons_inv_l in HK as (k & K' & [Hk _] & HK' & ->).
      simpl. rewrite (child_value _ _ _ _ Hct Hk), (IH _ HK').
      by rewrite Nat2Z.inj_add. }
  rewrite sum_occurrences by done.
  pose proof (child_keys_all key K) as Hle.
  specialize (Hle
    ltac:(intros k [i Hi]%list_elem_of_lookup;
          by destruct (Forall2_lookup_r _ _ _ _ _ HK Hi) as (? & _ & _ & ?))
    metrics).
  rewrite Hf. unfold nodeAt in Hkey.
  destruct (decide (key ≠ "")) as [Hne|Hkey0%dec_stable].
  - rewrite decide_False in Hle by done.
    rewrite (inv_value _ _ _ _ I _ _ _ Hkey Hm). lia.
  - subst key. injection Hkey as <-. rewrite decide_True in Hle by done.
    destruct (inv_root _ _ _ _ I _ Hm) as (_ & -> & _).
    rewrite (occurrences_absent "") in Hle; [lia|].
    unfold allKeys. intros (m' & Hin & _)%list_elem_of_bind.
    by apply pathKeys_nonempty in Hin.
Qed.

Lemma children_names fuel q n key :
  treeOf fuel (hp st) q = Some n → nodeAt (seen st) key = Some q →
  NoDup ((λ c, Name (fields c)) <$> Children n).
Proof.
  intros (fuel' & m & _ & Hm & Hf & Hcs)%node_cell Hkey.
  destruct (children_keys key q m Hkey Hm) as (K & HK & HndK).
  assert (Forall2 (λ ct k, k = key +:+ "." +:+ Name (fields ct) ∧
                           dotfree (Name (fields ct)) = true)
            (Children n) K) as Hnames.
  { apply Forall2_same_length_lookup_2.
    - apply Forall2_length in Hcs, HK. congruence.
    - intros i ct k Hct Hk.
      destruct (Forall2_lookup_r _ _ _ _ _ Hcs Hct) as (c & Hc & Htree).
      destruct (Forall2_lookup_lr _ _ _ _ _ _ HK Hc Hk)
        as (Hseen & part & -> & Hdot).
      apply node_cell in Htree as (_ & mc & _ & Hmc & -> & _).
      by rewrite (key_name I _ _ _ _ _ Hseen Hmc eq_refl Hdot). }
  clear HK Hcs. revert K HndK Hnames.
  induction (Children n) as [|ct cs IH]; intros K HndK Hnames.
  { apply NoDup_nil_2. }
  apply Forall2_cons_inv_l in Hnames as (k & K' & [-> _] & Hnames & ->).
  apply NoDup_cons in HndK as [Hk HndK].
  rewrite fmap_cons. apply NoDup_cons_2; [|by apply (IH K')].
  intros (ct' & Heq & [i Hi]%list_elem_of_lookup)%list_elem_of_fmap.
  destruct (Forall2_lookup_l _ _ _ _ _ Hnames Hi) as (k' & Hk' & -> & _).
  apply Hk. rewrite Heq. by eapply list_elem_of_lookup_2.
Qed.
End children.

Lemma built_node_key cl metrics st fuel p t n :
  inv cl (Z.of_nat (length metrics)) (allKeys metrics) st →
  treeOf fuel (hp st) p = Some t → n ∈ nodes t →
  ∃ fuel' q key, treeOf fuel' (hp st) q = Some n ∧
                 nodeAt (seen st) key = Some q.
Proof.
  intros I Ht Hn.
  destruct (treeOf_subtrees _ _ _ _ Ht Hn) as (fuel' & q & Hq).
  destruct (node_cell _ _ _ Hq) as (_ & m & _ & Hm & _).
  destruct (ptr_key I q) as [key Hkey]; [by eapply lookup_lt_Some|].
  by exists fuel', q, key.
Qed.

(** X11. In the built tree the values of the children of a node add up to
    at most the value of the node: a name that passes through a node
    passes through at most one of its children. *)
Theorem buildTree_children_sum (cl : string) (metrics : list string) :
  fits metrics →
  ∃ t, buildTree cl metrics = Some t ∧
       ∀ n, n ∈ nodes t → sumValues (Children n) ≤ Value (fields n).
Proof.
  intros Hfits.
  destruct (buildTree_inv cl metrics Hfits) as (st & t & _ & I & Ht & Hb).
  exists t. split; [done|]. intros n Hn.
  destruct (built_node_key _ _ _ _ _ _ _ I Ht Hn) as (fuel' & q & key & ? & ?).
  by eapply (children_sum I).
Qed.

Lemma buildTree_children_sum_witness :
  fits exampleMetrics ∧
  ∃ t, buildTree "c" exampleMetrics = Some t ∧
       ∀ n, n ∈ nodes t → sumValues (Children n) ≤ Value (fields n).
Proof.
  split; [exact fits_exampleMetrics|].
  exact (buildTree_children_sum "c" exampleMetrics fits_exampleMetrics).
Defined.

(** X12. In the built tree the children of a node have distinct names: a
    path segment gets one node under its parent, however often it occurs. *)
Theorem buildTree_sibling_names (cl : string) (metrics : list string) :
  fits metrics →
  ∃ t, buildTree cl metrics = Some t ∧
       ∀ n, n ∈ nodes t → NoDup ((λ c, Name (fields c)) <$> Children n).
Proof.
  intros Hfits.
  destruct (buildTree_inv cl metrics Hfits) as (st & t & _ & I & Ht & Hb).
  exists t. split; [done|]. intros n Hn.
  destruct (built_node_key _ _ _ _ _ _ _ I Ht Hn) as (fuel' & q & key & ? & ?).
  by eapply (children_names I).
Qed.

Lemma buildTree_sibling_names_witness :
  fits exampleMetrics ∧
  ∃ t, buildTree "c" exampleMetrics = Some t ∧
       ∀ n, n ∈ nodes t → NoDup ((λ c, Name (fields c)) <$> Children n).
Proof.
  split; [exact fits_exampleMetrics|].
  exact (buildTree_sibling_names "c" exampleMetrics fits_exampleMetrics).
Defined.

Lemma keyedBelow_unfold key f cs :
  keyedBelow key (Node f cs)
  = cs ≫= (λ c, (key +:+ "." +:+ Name (fields c), c)
                  :: keyedBelow (key +:+ "." +:+ Name (fields c)) c).
Proof. reflexivity. Qed.

Lemma keyedBelow_nodes key t : (keyedBelow key t).*2 = descendants t.
Proof.
  revert key. induction t as [f cs IH] using flameGraphNode_ind'. intros key.
  unfold descendants. rewrite keyedBelow_unfold, nodes_unfold. simpl tail.
  induction IH as [|c cs' Hc _ IHcs]; [done|].
  rewrite !bind_cons, fmap_app, IHcs, fmap_cons, Hc. simpl.
  unfold descendants. by destruct c.
Qed.

Section keyed.
Context {cl : string} {total : Z} {visited : list string} {st : buildState}.
Hypothesis I : inv cl total visited st.

Lemma keyedBelow_ptrs fuel q n key :
  treeOf fuel (hp st) q = Some n → nodeAt (seen st) key = Some q →
  Forall2 (λ kn p, seen st !! kn.1 = Some p ∧
                   ∃ cell, hp st !! p = Some cell ∧
                           fields kn.2 = hFields cell)
    (keyedBelow key n) (tail (ptrsOf fuel (hp st) q)).
Proof.
  revert q n key. induction fuel as [|fuel IH]; intros q n key Ht Hkey;
    [done|].
  apply treeOf_Some in Ht as (m & cs & Hm & -> & Hcs).
  rewrite keyedBelow_unfold. simpl ptrsOf. rewrite Hm.
  change (Forall2 (λ kn p, seen st !! kn.1 = Some p ∧
                   ∃ cell, hp st !! p = Some cell ∧
                           fields kn.2 = hFields cell)
            (cs ≫= (λ c, (key +:+ "." +:+ Name (fields c), c)
                  :: keyedBelow (key +:+ "." +:+ Name (fields c)) c))
            (hChildren m ≫= ptrsOf fuel (hp st))).
  apply Forall2_bind. apply Forall2_flip in Hcs.
  apply Forall2_same_length_lookup_2; [by eapply Forall2_length|].
  intros i ct c Hct Hc.
  pose proof (Forall2_lookup_lr _ _ _ _ _ _ Hcs Hct Hc) as Htree.
  simpl in Htree.
  assert (c ∈ hChildren m) as Hin by (by eapply list_elem_of_lookup_2).
  destruct (child_key I _ _ _ _ Hkey Hm Hin) as (part & Hseen & Hdot).
  destruct fuel as [|fuel']; [done|].
  apply treeOf_Some in Htree as Htree'.
  destruct Htree' as (mc & ds & Hmc & Hcteq & _).
  assert (Name (fields ct) = part) as Hname.
  { rewrite Hcteq. simpl. by eapply (key_name I). }
  rewrite Hname.
  change (ptrsOf (S fuel') (hp st) c)
    with (c :: tail (ptrsOf (S fuel') (hp st) c)).
  constructor.
  - simpl. split; [done|]. exists mc. by rewrite Hcteq.
  - apply IH; [done|]. by eapply (nodeAt_seen I).
Qed.
End keyed.

(** X13. Every node below the root, taken with its own key (the names on
    the path from the root down to it, each after a dot), has as value the
    number of names whose walk looks that key up. The keys of the nodes
    are pairwise distinct, and they are exactly the keys looked up. *)
Theorem buildTree_values (cl : string) (metrics : list string) :
  fits metrics →
  ∃ t, buildTree cl metrics = Some t ∧
       (keyedBelow "" t).*2 = descendants t ∧
       NoDup (keyedBelow "" t).*1 ∧
       (∀ k, k ∈ (keyedBelow "" t).*1 ↔ k ∈ allKeys metrics) ∧
       (∀ k n, (k, n) ∈ keyedBelow "" t →
               Value (fields n) = Z.of_nat (length (namesWith k metrics))).
Proof.
  intros Hfits.
  destruct (buildTree_inv cl metrics Hfits) as (st & t & _ & I & Ht & Hb).
  exists t. split; [done|]. split; [apply keyedBelow_nodes|].
  pose proof (keyedBelow_ptrs I _ 0%nat t "" Ht eq_refl) as HF.
  assert (NoDup (tail (ptrsOf (length (hp st)) (hp st) 0))) as Hnd.
  { pose proof (ptrsOf_NoDup I (length (hp st)) 0) as H.
    destruct (ptrsOf _ _ _); [done|]. by apply NoDup_cons in H as [_ ?]. }
  split_and!.
  - apply NoDup_alt. intros i j k Hi Hj.
    apply list_lookup_fmap_Some in Hi as ([k1 n1] & -> & Hi).
    apply list_lookup_fmap_Some in Hj as ([k2 n2] & Heq & Hj).
    simpl in Heq. subst k2.
    destruct (Forall2_lookup_l _ _ _ _ _ HF Hi) as (p1 & Hp1 & Hs1 & _).
    destruct (Forall2_lookup_l _ _ _ _ _ HF Hj) as (p2 & Hp2 & Hs2 & _).
    simpl in *. assert (p1 = p2) as -> by congruence.
    by eapply NoDup_lookup.
  - intros k. split.
    + intros ([k' n] & -> & [i Hi]%list_elem_of_lookup)%list_elem_of_fmap.
      destruct (Forall2_lookup_l _ _ _ _ _ HF Hi) as (p & _ & Hs & _).
      apply (inv_seen_dom _ _ _ _ I). by eexists.
    + intros [p Hk]%(inv_seen_dom _ _ _ _ I).
      pose proof (inv_seen_range _ _ _ _ I _ _ Hk) as Hr.
      assert (p ∈ tail (ptrsOf (length (hp st)) (hp st) 0)) as Hin.
      { assert (p ∈ ptrsOf (length (hp st)) (hp st) 0) as Hin.
        { rewrite (ptrsOf_all I). apply elem_of_seq. lia. }
        destruct (length (hp st)) as [|fuel]; [lia|]. simpl in *.
        apply elem_of_cons in Hin as [->|?]; [lia|done]. }
      apply list_elem_of_lookup in Hin as [i Hi].
      destruct (Forall2_lookup_r _ _ _ _ _ HF Hi) as ([k' n] & Hn & Hs & _).
      simpl in Hs. rewrite (inv_seen_inj _ _ _ _ I _ _ _ Hk Hs).
      apply list_elem_of_fmap. exists (k', n). split; [done|].
      by eapply list_elem_of_lookup_2.
  - intros k n [i Hi]%list_elem_of_lookup.
    destruct (Forall2_lookup_l _ _ _ _ _ HF Hi)
      as (p & _ & Hs & cell & Hp & Hf).
    simpl in *. rewrite Hf, (inv_value _ _ _ _ I _ _ _ Hs Hp).
    by rewrite occurrences_namesWith.
Qed.

Lemma buildTree_values_witness :
  fits metricsTwoB ∧
  ∃ t, buildTree "c" metricsTwoB = Some t ∧
       (∀ k n, (k, n) ∈ keyedBelow "" t →
               Value (fields n)
               = Z.of_nat (length (namesWith k metricsTwoB))).
Proof.
  assert (fits metricsTwoB) as H by (split; vm_compute; reflexivity).
  split; [exact H|].
  destruct (buildTree_values "c" metricsTwoB H) as (t & Ht & _ & _ & _ & Hv).
  exists t. split; [exact Ht|exact Hv].
Defined.

(** ** Names without a dot *)

Lemma split_dot_dotfree_id m : dotfree m = true → split_dot m = [m].
Proof.
  induction m as [|c m IH]; simpl; [done|].
  intros [Hc Hm]%andb_true_iff. apply negb_true_iff in Hc.
  by rewrite Hc, (IH Hm).
Qed.

Lemma visitMetric_dotfree root total st m :
  dotfree m = true →
  visitMetric root total st m
  = Some (mkBuild (hp st) (cnt st) (seen st) "" (seenSoFarPrev st)).
Proof.
  intros Hm. unfold visitMetric. by rewrite (split_dot_dotfree_id m Hm).
Qed.

(** X14. Names without a dot have no path component before the last one:
    they create no node, and the tree is the root alone, whose value and
    total still count them. *)
Theorem buildTree_no_components (cl : string) (metrics : list string) :
  Forall (λ m, dotfree m = true) metrics →
  buildTree cl metrics = Some (Node (hFields (rootNode cl metrics)) []).
Proof.
  intros Hall. unfold buildTree, buildHeap, constructTree.
  set (total := wrap64 (Z.of_nat (length metrics))).
  assert (∀ st, ∃ st', forEach (visitMetric 0 total) metrics st = Some st' ∧
                       hp st' = hp st) as Hrun.
  { clearbody total. induction Hall as [|m ms Hm _ IH]; intros st;
      [by exists st|].
    simpl. rewrite visitMetric_dotfree by done. simpl.
    destruct (IH (mkBuild (hp st) (cnt st) (seen st) "" (seenSoFarPrev st)))
      as (st' & -> & Hhp).
    by exists st'. }
  destruct (Hrun (mkBuild [rootNode cl metrics] (wrap64 (rootElementId + 1))
                    ∅ "" "")) as (st' & -> & Hhp).
  simpl. by rewrite Hhp.
Qed.

Lemma buildTree_no_components_witness :
  Forall (λ m, dotfree m = true) ["cpu"; "load"] ∧
  buildTree "c" ["cpu"; "load"]
  = Some (Node (hFields (rootNode "c" ["cpu"; "load"])) []).
Proof.
  assert (Forall (λ m, dotfree m = true) ["cpu"; "load"]) as H
    by (repeat constructor).
  split; [exact H|]. exact (buildTree_no_components "c" _ H).
Defined.

(** ** The merge loops of the collector *)

Lemma responseUniq_inner (response : list string) (uniq : gset string) x :
  x ∈ foldl (λ u metric, {[metric]} ∪ u) uniq response ↔
  x ∈ uniq ∨ x ∈ response.
Proof.
  revert uniq. induction response as [|m ms IH]; intros uniq; simpl.
  - rewrite elem_of_nil. split; [by left|by intros [?|?]].
  - rewrite IH, elem_of_union, elem_of_singleton, elem_of_cons.
    split; [intros [[?|?]|?]|intros [?|[?|?]]]; auto.
Qed.

Lemma responseUniq_outer responses (uniq : gset string) x :
  x ∈ foldl (λ uniq response,
               foldl (λ u metric, {[metric]} ∪ u) uniq response)
        uniq responses ↔
  x ∈ uniq ∨ ∃ r, r ∈ responses ∧ x ∈ r.
Proof.
  revert uniq. induction responses as [|r rs IH]; intros uniq; simpl.
  - split; [by left|]. intros [?|(r & ?%elem_of_nil & _)]; done.
  - rewrite IH, responseUniq_inner. split.
    + intros [[?|?]|(r' & ? & ?)]; [by left| |].
      * right. exists r. split; [left|done].
      * right. exists r'. split; [by right|done].
    + intros [?|(r' & [->|?]%elem_of_cons & ?)].
      * left. by left.
      * left. by right.
      * right. by exists r'.
Qed.

Lemma elem_of_responseUniq responses x :
  x ∈ responseUniq responses ↔ ∃ r, r ∈ responses ∧ x ∈ r.
Proof.
  unfold responseUniq. rewrite responseUniq_outer.
  split; [intros [?%not_elem_of_empty|?]; done|by right].
Qed.

(** X15. The loops that merge the slots of [responses]: whatever the
    slots hold, and whatever the order in which the map is ranged over, the
    slice built holds every name of every slot, once, and nothing else; a
    slot that holds the empty list changes nothing. *)
Theorem mergedResponse_names (responses : list (list string))
    (response : list string) :
  mergedResponse responses response →
  NoDup response ∧
  (∀ x, x ∈ response ↔ ∃ r, r ∈ responses ∧ x ∈ r) ∧
  (∀ before after,
     responses = before ++ [] :: after →
     mergedResponse (before ++ after) response).
Proof.
  unfold mergedResponse. intros Hr. split_and!.
  - rewrite Hr. apply NoDup_elements.
  - intros x. by rewrite Hr, elem_of_elements, elem_of_responseUniq.
  - intros before after ->. rewrite Hr.
    assert (responseUniq (before ++ [] :: after)
            = responseUniq (before ++ after)) as ->; [|done].
    apply set_eq. intros x. rewrite !elem_of_responseUniq.
    split; intros (r & Hin & Hx); exists r; (split; [|done]).
    + apply elem_of_app in Hin as [?|[->|?]%elem_of_cons].
      * apply elem_of_app. by left.
      * by apply elem_of_nil in Hx.
      * apply elem_of_app. by right.
    + apply elem_of_app in Hin as [?|?]; apply elem_of_app;
        [by left|right; by right].
Qed.

Lemma mergedResponse_names_witness :
  mergedResponse [["a.x"; "b.x"]; []; ["a.x"]]
    (elements (responseUniq [["a.x"; "b.x"]; []; ["a.x"]])) ∧
  NoDup (elements (responseUniq [["a.x"; "b.x"]; []; ["a.x"]])).
Proof.
  assert (mergedResponse [["a.x"; "b.x"]; []; ["a.x"]]
            (elements (responseUniq [["a.x"; "b.x"]; []; ["a.x"]]))) as H
    by (unfold mergedResponse; reflexivity).
  split; [exact H|]. exact (proj1 (mergedResponse_names _ _ H)).
Defined.

(** X16. The merged slice, handed to [parseTree]: the order in which the
    map is ranged over does not show in the tree, up to ids and the order
    of siblings; and the value of the root is the number of distinct names
    the slots hold, a name held by several slots counted once. *)
Theorem mergedResponse_buildTree (cl : string) (responses : list (list string))
    (r1 r2 : list string) :
  mergedResponse responses r1 → mergedResponse responses r2 →
  fits r1 →
  ∃ t1 t2, buildTree cl r1 = Some t1 ∧ buildTree cl r2 = Some t2 ∧
           treeSim t1 t2 ∧
           Value (fields t1) = Z.of_nat (size (responseUniq responses)).
Proof.
  unfold mergedResponse. intros H1 H2 Hfits1.
  assert (r1 ≡ₚ r2) as Hperm by (by rewrite H1, H2).
  pose proof (fits_Permutation _ _ Hperm Hfits1) as Hfits2.
  destruct (buildTree_inv cl r1 Hfits1) as (st1 & t1 & _ & I1 & Ht1 & Hb1).
  destruct (buildTree_inv cl r2 Hfits2) as (st2 & t2 & _ & I2 & Ht2 & Hb2).
  exists t1, t2. split_and!; [done..| |].
  - rewrite <- (Permutation_length Hperm) in I2.
    by eapply (treeSim_at I1 I2 (allKeys_Permutation _ _ Hperm)
                 _ _ "" 0%nat 0%nat).
  - destruct (built_root _ _ _ _ I1 Ht1) as (_ & -> & _).
    by rewrite H1.
Qed.

Lemma mergedResponse_buildTree_witness :
  mergedResponse [["a.x"; "b.x"]; ["a.x"]] metricsAB ∧
  mergedResponse [["a.x"; "b.x"]; ["a.x"]] metricsBA ∧
  fits metricsAB ∧
  ∃ t1 t2, buildTree "c" metricsAB = Some t1 ∧
           buildTree "c" metricsBA = Some t2 ∧ treeSim t1 t2 ∧
           Value (fields t1)
           = Z.of_nat (size (responseUniq [["a.x"; "b.x"]; ["a.x"]])).
Proof.
  assert (mergedResponse [["a.x"; "b.x"]; ["a.x"]] metricsAB) as H1.
  { unfold mergedResponse. apply (bool_decide_unpack _).
    vm_compute. exact I. }
  assert (mergedResponse [["a.x"; "b.x"]; ["a.x"]] metricsBA) as H2.
  { unfold mergedResponse. apply (bool_decide_unpack _).
    vm_compute. exact I. }
  assert (fits metricsAB) as Hf by (split; reflexivity).
  split; [exact H1|]. split; [exact H2|]. split; [exact Hf|].
  exact (mergedResponse_buildTree "c" _ _ _ H1 H2 Hf).
Defined.

(** X17. A fetch makes at least one call and at most three; every call
    before the last one failed; and where the last call failed too, it was
    the third and the result is empty. *)
Theorem getList_calls (net : nat → attempt) :
  (1 ≤ snd (getList net) ≤ 3)%nat ∧
  (∀ j, (S j < snd (getList net))%nat → failed (net j) = true) ∧
  (failed (net (snd (getList net) - 1)%nat) = true →
   getList net = ([], 3%nat)).
Proof.
  rewrite getList_closed_form.
  destruct (failed (net 0%nat)) eqn:H0; simpl;
    [destruct (failed (net 1%nat)) eqn:H1; simpl;
       [destruct (failed (net 2%nat)) eqn:H2; simpl|]|].
  - split_and!; [lia|lia| |done].
    intros j Hj. destruct j as [|[|j]]; [done|done|lia].
  - split_and!; [lia|lia| |congruence].
    intros j Hj. destruct j as [|[|j]]; [done|done|lia].
  - split_and!; [lia|lia| |congruence].
    intros j Hj. destruct j as [|j]; [done|lia].
  - split_and!; [lia|lia| |congruence]. intros j Hj. lia.
Qed.

Lemma getList_calls_witness :
  failed (alwaysDown (snd (getList alwaysDown) - 1)%nat) = true ∧
  getList alwaysDown = ([], 3%nat).
Proof.
  assert (failed (alwaysDown (snd (getList alwaysDown) - 1)%nat) = true) as H
    by reflexivity.
  split; [exact H|].
  exact (proj2 (proj2 (getList_calls alwaysDown)) H).
Defined.

(** ** [strings.Split] *)

Lemma split_dot_nonempty s : split_dot s ≠ [].
Proof.
  destruct s as [|c s]; simpl; [done|].
  destruct (Ascii.eqb c "."); [done|]. by destruct (split_dot s).
Qed.

(** X18. Splitting a name on the dot gives at least one part, no part holds
    a dot, and the parts joined with dots are the name. *)
Theorem split_dot_join (s : string) :
  split_dot s ≠ [] ∧
  Forall (λ p, dotfree p = true) (split_dot s) ∧
  join_dot (split_dot s) = s.
Proof.
  split_and!; [apply split_dot_nonempty|apply split_dot_dotfree|].
  induction s as [|c s IH]; [done|]. simpl.
  destruct (Ascii.eqb_spec c ".") as [->|Hc].
  - pose proof (split_dot_nonempty s).
    destruct (split_dot s) as [|p ps] eqn:E; [done|].
    simpl in *. by rewrite IH.
  - pose proof (split_dot_nonempty s).
    destruct (split_dot s) as [|p ps] eqn:E; [done|].
    destruct ps as [|p' ps]; simpl in *; by rewrite <- IH.
Qed.

(** ** Writing a snapshot *)

Lemma execRows_ok execErr i t now ch :
  (∀ j, (j < length ch)%nat → execErr (i + j)%nat = false) →
  execRows execErr i t now ch = (insertOf t now <$> ch, true).
Proof.
  revert i. induction ch as [|r ch IH]; intros i Hok; [done|].
  simpl. pose proof (Hok 0%nat) as H0. rewrite Nat.add_0_r in H0.
  rewrite H0 by (simpl; lia). rewrite IH; [done|].
  intros j Hj. replace (S i + j)%nat with (i + S j)%nat by lia.
  apply Hok. simpl. lia.
Qed.

Lemma execRows_fail execErr i t now ch k :
  (k < length ch)%nat →
  (∀ j, (j < k)%nat → execErr (i + j)%nat = false) →
  execErr (i + k)%nat = true →
  execRows execErr i t now ch = (insertOf t now <$> take (S k) ch, false).
Proof.
  revert i k. induction ch as [|r ch IH]; intros i k Hk Hok Hfail;
    [simpl in Hk; lia|].
  simpl. destruct k as [|k].
  - rewrite Nat.add_0_r in Hfail. rewrite Hfail. by rewrite take_0.
  - pose proof (Hok 0%nat) as H0. rewrite Nat.add_0_r in H0.
    rewrite H0 by lia. rewrite (IH (S i) k); [done|simpl in Hk; lia| |].
    + intros j Hj. replace (S i + j)%nat with (i + S j)%nat by lia.
      apply Hok. lia.
    + by replace (S i + k)%nat with (i + S k)%nat by lia.
Qed.

Lemma execRows_true execErr i t now ch executed :
  execRows execErr i t now ch = (executed, true) →
  ∀ j, (j < length ch)%nat → execErr (i + j)%nat = false.
Proof.
  revert i executed. induction ch as [|r ch IH]; intros i executed H j Hj;
    [simpl in Hj; lia|].
  simpl in H. destruct (execErr i) eqn:Hi; [done|].
  destruct (execRows execErr (S i) t now ch) as [ex ok] eqn:E.
  injection H as _ ->. destruct j as [|j].
  - by rewrite Nat.add_0_r.
  - replace (i + S j)%nat with (S i + j)%nat by lia.
    eapply IH; [done|]. simpl in Hj. lia.
Qed.

(** X19. A write commits exactly when every call succeeds, and then the
    statements are the rows of the tree, in order, with the graph type
    "graphite_metrics". Where the [k]-th statement is the first to fail,
    the statements up to it were issued and nothing is committed. A failure
    to open the connection or to create the table ends the process. *)
Theorem sendToClickhouse_outcomes (db : rowStore) (node : flameGraphNode)
    (now : Z) :
  (∀ executed,
     sendToClickhouse db node now = SendReturned executed true ↔
     sOpenErr db = false ∧ sPingErr db = false ∧ sCreateErr db = false ∧
     sBeginErr db = false ∧ sPrepareErr db = false ∧ sCommitErr db = false ∧
     (∀ j, (j < length (convertToClickhouse node now))%nat →
           sExecErr db j = false) ∧
     executed = insertOf now now <$> convertToClickhouse node now) ∧
  (∀ k,
     sOpenErr db = false → sPingErr db = false → sCreateErr db = false →
     sBeginErr db = false → sPrepareErr db = false →
     (k < length (convertToClickhouse node now))%nat →
     (∀ j, (j < k)%nat → sExecErr db j = false) → sExecErr db k = true →
     sendToClickhouse db node now
     = SendReturned
         (insertOf now now <$> take (S k) (convertToClickhouse node now))
         false) ∧
  (sendToClickhouse db node now = SendExited ↔
   sOpenErr db = true ∨ (sPingErr db = false ∧ sCreateErr db = true)).
Proof.
  unfold sendToClickhouse. split_and!.
  - intros executed. split.
    + destruct (sOpenErr db); [done|]. destruct (sPingErr db); [done|].
      destruct (sCreateErr db); [done|]. destruct (sBeginErr db); [done|].
      destruct (sPrepareErr db); [done|].
      destruct (execRows _ _ _ _ _) as [ex ok] eqn:E.
      destruct ok; [|done]. destruct (sCommitErr db); [done|].
      intros [= <-]. pose proof (execRows_true _ _ _ _ _ _ E) as Hok.
      split_and!; try done.
      rewrite execRows_ok in E by done. by injection E as <-.
    + intros (-> & -> & -> & -> & -> & -> & Hok & ->).
      by rewrite execRows_ok.
  - intros k -> -> -> -> -> Hk Hok Hfail.
    by rewrite (execRows_fail _ _ _ _ _ k).
  - destruct (sOpenErr db); [split; [by left|done]|].
    destruct (sPingErr db).
    { split; [done|]. intros [?|[? _]]; done. }
    destruct (sCreateErr db); [split; [by right|done]|].
    assert (∀ r, r ≠ SendExited →
                 r = SendExited ↔ false = true ∨ false = false ∧ false = true)
      as Hno.
    { intros r Hr. split; [done|]. intros [?|[_ ?]]; done. }
    destruct (sBeginErr db); [by apply Hno|].
    destruct (sPrepareErr db); [by apply Hno|].
    destruct (execRows _ _ _ _ _) as [ex [|]];
      [destruct (sCommitErr db)|]; by apply Hno.
Qed.

Lemma sendToClickhouse_outcomes_witness :
  sendToClickhouse healthyStore exampleChain 7
  = SendReturned (insertOf 7 7 <$> convertToClickhouse exampleChain 7) true ∧
  sendToClickhouse failingStore exampleChain 7
  = SendReturned
      (insertOf 7 7 <$> take 3 (convertToClickhouse exampleChain 7)) false.
Proof.
  split.
  - apply (proj1 (sendToClickhouse_outcomes healthyStore exampleChain 7)).
    split_and!; by intros.
  - apply (proj1 (proj2 (sendToClickhouse_outcomes failingStore
                           exampleChain 7)) 2%nat); try reflexivity.
    + vm_compute. lia.
    + intros j Hj. simpl. apply bool_decide_eq_false. lia.
Defined.

(** ** The query handler, beyond validation *)

Lemma scanData_Some rows (acc : gmap Z clickhouseField) :
  scanData (Some <$> rows) acc
  = Some (foldl (λ data r, <[chId r := r]> data) acc rows).
Proof.
  revert acc. induction rows as [|r rows IH]; intros acc; [done|].
  simpl. apply IH.
Qed.

Lemma http_Error_empty error code :
  http_Error error code emptyWriter
  = Returned tt (mkWriter (Some code) [Text error]).
Proof. done. Qed.

(** X20. What a request can end in, and when. The process exits with
    code 1 where a parameter is missing or the connection cannot be opened,
    and with code 2 where the reconstruction overflows the stack. The
    handler panics, with nothing written, where the first query fails.
    Otherwise it returns, and the response is either status 500 with the
    one line of text [Error fetching data], or status 200 with one tree.
    It never answers 400. Rows that hold a row above the minimum which
    lists its own id, among the children of the root row, end in exit
    code 2 whatever room the stack has. *)
Theorem getHandler_outcomes (db : backend) (req : request) :
  match getHandler db req emptyWriter with
  | Exited code =>
      (code = 1 ∧
       (form_ts req = "" ∨ form_cluster req = "" ∨ openErr db = true)) ∨
      (code = 2 ∧
       ∃ trows total drows data,
         totalRows db = Some trows ∧ scanTotal trows 0 = Some total ∧
         dataRows db = Some drows ∧ scanData drows ∅ = Some data ∧
         reconstructTree (reconstructFuel db) data
           (Node (nodeOfRow (lookupRow data rootElementId)) [])
           (floorOf db total) = None)
  | Panicked w => w = emptyWriter ∧ totalRows db = None
  | Returned _ w =>
      w = mkWriter (Some StatusInternalServerError)
            [Text "Error fetching data"] ∨
      ∃ tree, w = mkWriter (Some StatusOK) [Json tree]
  end ∧
  (∀ trows total rows i,
     form_ts req ≠ "" → form_cluster req ≠ "" →
     openErr db = false → pingErr db = false →
     totalRows db = Some trows → scanTotal trows 0 = Some total →
     dataRows db = Some (Some <$> rows) →
     i ∈ chChildrenIds (lookupRow (keyById rows) rootElementId) →
     floorOf db total < chValue (lookupRow (keyById rows) i) →
     i ∈ chChildrenIds (lookupRow (keyById rows) i) →
     getHandler db req emptyWriter = Exited 2).
Proof.
  split.
  - unfold getHandler.
    destruct (bool_decide (form_ts req = "")) eqn:Hts.
    { apply bool_decide_eq_true in Hts. simpl. auto. }
    destruct (bool_decide (form_cluster req = "")) eqn:Hcl.
    { apply bool_decide_eq_true in Hcl. simpl. auto. }
    simpl. destruct (openErr db) eqn:Hopen; [simpl; auto|].
    destruct (pingErr db); [left; done|].
    destruct (totalRows db) as [trows|]; [|done].
    destruct (scanTotal trows 0) as [total|] eqn:Htotal; [|left; done].
    destruct (dataRows db) as [drows|]; [|left; done].
    destruct (scanData drows ∅) as [data|] eqn:Hdata; [|left; done].
    destruct (reconstructTree _ _ _ _) as [tree|] eqn:Hrec.
    + destruct (marshalErr db); [left; done|]. right. by eexists.
    + right. split; [done|]. by exists trows, total, drows, data.
  - intros trows total rows i Hts Hcl Hopen Hping Htrows Htotal Hdata
      Hroot Hv Hi.
    unfold getHandler.
    rewrite (bool_decide_eq_false_2 _ Hts), (bool_decide_eq_false_2 _ Hcl).
    simpl. rewrite Hopen, Hping, Htrows, Htotal, Hdata, scanData_Some.
    fold (keyById rows).
    by rewrite (reconstructTree_through_loop (keyById rows)
                  (Node (nodeOfRow (lookupRow (keyById rows) rootElementId)) [])
                  i (floorOf db total) Hroot Hv Hi).
Qed.

Lemma getHandler_outcomes_witness :
  (form_ts requestChain ≠ "" ∧ form_cluster requestChain ≠ "" ∧
   2 ∈ chChildrenIds (lookupRow (keyById loopRows) rootElementId) ∧
   floorOf loopBackend 10 < chValue (lookupRow (keyById loopRows) 2) ∧
   2 ∈ chChildrenIds (lookupRow (keyById loopRows) 2)) ∧
  getHandler loopBackend requestChain emptyWriter = Exited 2.
Proof.
  assert (form_ts requestChain ≠ "") as H1 by done.
  assert (form_cluster requestChain ≠ "") as H2 by done.
  assert (2 ∈ chChildrenIds (lookupRow (keyById loopRows) rootElementId))
    as H3 by (vm_compute; left).
  assert (floorOf loopBackend 10 < chValue (lookupRow (keyById loopRows) 2))
    as H4 by (vm_compute; reflexivity).
  assert (2 ∈ chChildrenIds (lookupRow (keyById loopRows) 2)) as H5
    by (vm_compute; left).
  split; [by split_and!|].
  exact (proj2 (getHandler_outcomes loopBackend requestChain)
           [Some 10] 10 loopRows 2 H1 H2 eq_refl eq_refl eq_refl eq_refl
           eq_refl H3 H4 H5).
Defined.

(** ** The read path, end to end *)

Section stored.
Variables (t : flameGraphNode) (ts minValue : Z).
Hypothesis Hnd : NoDup (ids t).
Hypothesis Hmin : 0 ≤ minValue.



End stored.



(** X22. Where the rows that come back hold no row of the root id (the
    snapshot is not stored, or the minimum is not below the value of the
    root), the handler still answers 200: the body is a node with empty
    name, total 0 and value 0 and no children. *)
Theorem getHandler_without_root (db : backend) (req : request)
    (trows : list (option Z)) (total : Z) (rows : list clickhouseField) :
  form_ts req ≠ "" → form_cluster req ≠ "" →
  openErr db = false → pingErr db = false → marshalErr db = false →
  totalRows db = Some trows → scanTotal trows 0 = Some total →
  dataRows db = Some (Some <$> rows) →
  Forall (λ r, chId r ≠ rootElementId) rows →
  (0 < reconstructFuel db)%nat →
  getHandler db req emptyWriter
  = Returned tt (mkWriter (Some StatusOK) [Json (Node (nodeOfRow zeroRow) [])]).
Proof.
  intros Hts Hcl Hopen Hping Hmarshal Htrows Htotal Hdata Hnoroot Hfuel.
  unfold getHandler.
  rewrite (bool_decide_eq_false_2 _ Hts), (bool_decide_eq_false_2 _ Hcl).
  simpl. rewrite Hopen, Hping, Htrows, Htotal, Hdata, scanData_Some.
  fold (keyById rows). unfold lookupRow at 1.
  rewrite (keyById_absent rows rootElementId Hnoroot). simpl.
  destruct (reconstructFuel db) as [|fuel]; [lia|]. simpl.
  by rewrite Hmarshal.
Qed.

Lemma getHandler_without_root_witness :
  getHandler healthyBackend requestChain emptyWriter
  = Returned tt (mkWriter (Some StatusOK) [Json (Node (nodeOfRow zeroRow) [])]).
Proof.
  apply (getHandler_without_root healthyBackend requestChain [Some 0] 0 []);
    try done.
  simpl. lia.
Defined.

Lemma reconstructTree_cycle_witness :
  2 ∈ childrenIds (fields loopRoot) ∧
  0 < chValue (lookupRow loopData 2) ∧
  2 ∈ chChildrenIds (lookupRow loopData 2) ∧
  reconstructTree 1000 loopData loopRoot 0 = None.
Proof.
  assert (2 ∈ childrenIds (fields loopRoot)) as H1 by (vm_compute; left).
  assert (0 < chValue (lookupRow loopData 2)) as H2 by (vm_compute; reflexivity).
  assert (2 ∈ chChildrenIds (lookupRow loopData 2)) as H3
    by (vm_compute; left).
  split; [exact H1|]. split; [exact H2|]. split; [exact H3|].
  exact (reconstructTree_cycle loopData loopRoot 2 0 H1 H2 H3 1000%nat).
Defined.
